(** * nokari: permission evaluation, prefix resolution, command checks,
      plugin loading and the confirmation prompt

    A shallow embedding of
      - [nokari/utils/perms.py]   (module [Perms]),
      - [nokari/core/bot.py]      (modules [Prefix], [Plugins], [Prompt]),
      - [nokari/core/commands.py] (module [Commands]),
    together with the properties of the specification that concern them. *)

From Stdlib Require Import ZArith List String Ascii Bool Lia Sorted Permutation.
From stdpp Require Import base option list gmap.

Local Open Scope Z_scope.

(** ** Exceptions and results

    Python exceptions are values of [exn]; a call either returns or raises. *)

Inductive exn : Type :=
| KeyError (key : Z)
| RuntimeError (msg : string)
| UnboundLocalError (name : string)
| CheckFailure (msg : string)
| ExtensionMissingLoad (ext : string)
| ExtensionAlreadyLoaded (ext : string)
| ExtensionError (ext : string) (diagnostic : string)
| TimeoutError
| AttributeError (name : string)
| OtherException (msg : string).

Inductive result (A : Type) : Type :=
| Ok (a : A)
| Raise (e : exn).

Arguments Ok {A} a.
Arguments Raise {A} e.

(** Sequencing: an exception raised by the first computation propagates. *)
#[global] Instance result_bind : MBind result :=
  fun A B (k : A -> result B) (r : result A) =>
    match r with
    | Ok a => k a
    | Raise e => Raise e
    end.

(** * perms.py *)

Module Perms.

(** [hikari.Permissions] is a flag set carried by an integer; it is
    embedded as that integer, with [&] and [|] as [Z.land] and [Z.lor].
    A flag set is truthy when it is not zero. *)
Definition Permissions := Z.

Definition truthy (p : Permissions) : bool := negb (p =? 0).

(** Modelled from the spec: the permission enumeration belongs to the host
    platform ([hikari.Permissions], not part of this repository); the bit
    positions are the platform's published ones. *)
Definition NONE : Permissions := 0.
Definition ADMINISTRATOR : Permissions := Z.shiftl 1 3.
Definition VIEW_CHANNEL : Permissions := Z.shiftl 1 10.
Definition SEND_MESSAGES : Permissions := Z.shiftl 1 11.
Definition SEND_TTS_MESSAGES : Permissions := Z.shiftl 1 12.
Definition EMBED_LINKS : Permissions := Z.shiftl 1 14.
Definition ATTACH_FILES : Permissions := Z.shiftl 1 15.
Definition MENTION_ROLES : Permissions := Z.shiftl 1 17.

(** The flags that [perms.py] refers to by name. *)
Definition NAMED : Permissions :=
  Z.lor ADMINISTRATOR
    (Z.lor VIEW_CHANNEL
       (Z.lor SEND_MESSAGES
          (Z.lor SEND_TTS_MESSAGES
             (Z.lor EMBED_LINKS (Z.lor ATTACH_FILES MENTION_ROLES))))).

(** Modelled from the spec: the complement [~p] of a flag set is taken
    within the flags the enumeration declares, whose union is [everything];
    bits outside of it are not part of a complement.  Which flags the
    enumeration declares depends on the release of the platform library, so
    the enumeration is a parameter of the embedding; the flags that
    [perms.py] names are members, since the source reads them as attributes
    of the enumeration. *)
Record Flags :=
  { everything : Permissions;
    named_known : Z.land everything NAMED = NAMED }.

(** [~p] *)
Definition invert (F : Flags) (p : Permissions) : Permissions :=
  Z.land (everything F) (Z.lnot p).

(** The literal [0b111111111111111111111111111111111] of [get_guild_perms]:
    thirty-three ones. *)
Definition ALL : Permissions := 0x1FFFFFFFF.

(** The literal [0b10110011111101111111111101010001] of [_ensure_perms]. *)
Definition CHANNEL_DEPENDENT : Permissions := 0xB3F7FF51.

Record Role := { role_id : Z; role_permissions : Permissions }.

Record Overwrite := { ow_id : Z; allow : Permissions; deny : Permissions }.

Record Member := { member_id : Z; member_guild_id : Z; role_ids : list Z }.

Record Guild := { guild_id : Z; owner_id : Z; roles : gmap Z Role }.

Record Channel :=
  { channel_id : Z; channel_guild_id : Z;
    permission_overwrites : gmap Z Overwrite }.

(** The bot as [perms.py] sees it: a cache of guilds. *)
Record Bot := { cache : gmap Z Guild }.

(** [guild.get_role(role_id)]: the role of that id, or [None]. *)
Definition get_role (guild : Guild) (rid : Z) : option Role :=
  roles guild !! rid.

(** The decorator that makes the last argument (the guild) optional:
    when it is not passed, the guild is fetched from the bot's cache. *)
Definition _auto_pass_guild {A} (func : Guild -> result A)
    (bot : Bot) (member : Member) (guild : option Guild) : result A :=
  match guild with
  | Some g => func g
  | None =>
      match cache bot !! member_guild_id member with
      | None => Raise (RuntimeError "Unable to get the Guild object")
      | Some g => func g
      end
  end.

Section WithFlags.

Variable F : Flags.

(** [(perms & ~deny) | allow] *)
Definition _apply_overwrites (perms allow deny : Permissions) : Permissions :=
  Z.lor (Z.land perms (invert F deny)) allow.

(** The body of the second [if] is [perms.value &= ~mask], an assignment to
    the attribute [value] of a flag set.  A flag set does not let that
    attribute be assigned: once the right-hand side is evaluated the
    statement raises [AttributeError], so a set without VIEW_CHANNEL is
    never returned. *)
Definition _ensure_perms (perms : Permissions) : result Permissions :=
  let perms :=
    if negb (truthy (Z.land perms SEND_MESSAGES)) then
      let perms := Z.land perms (invert F SEND_TTS_MESSAGES) in
      let perms := Z.land perms (invert F MENTION_ROLES) in
      let perms := Z.land perms (invert F EMBED_LINKS) in
      Z.land perms (invert F ATTACH_FILES)
    else perms in
  if negb (truthy (Z.land perms VIEW_CHANNEL)) then
    Raise (AttributeError "value")
  else Ok perms.

(** The loop [for role_id in member.role_ids] of [get_guild_perms]. *)
Definition union_roles (guild : Guild) (rids : list Z) (ret : Permissions)
  : Permissions :=
  fold_left
    (fun ret rid =>
       match get_role guild rid with
       | None => ret
       | Some role => Z.lor ret (role_permissions role)
       end)
    rids ret.

Definition get_guild_perms (guild : Guild) (member : Member)
  : result Permissions :=
  if owner_id guild =? member_id member then Ok ALL
  else
    match roles guild !! guild_id guild with
    | None => Raise (KeyError (guild_id guild))
    | Some everyone =>
        let ret := union_roles guild (role_ids member)
                     (role_permissions everyone) in
        if truthy (Z.land ret ADMINISTRATOR) then Ok ALL
        else _ensure_perms ret
    end.

Definition has_guild_perms (bot : Bot) (member : Member)
    (perms : Permissions) (guild : option Guild) : result bool :=
  _auto_pass_guild
    (fun guild =>
       p ← get_guild_perms guild member;
       Ok (Z.land p perms =? perms))
    bot member guild.

(** The loop [for role_id in member.role_ids] of [has_channel_perms],
    on the pair [(allow, deny)]. *)
Definition union_overwrites (channel : Channel) (rids : list Z)
    (acc : Permissions * Permissions) : Permissions * Permissions :=
  fold_left
    (fun '(allow_acc, deny_acc) rid =>
       match permission_overwrites channel !! rid with
       | None => (allow_acc, deny_acc)
       | Some overwrite =>
           (Z.lor allow_acc (allow overwrite), Z.lor deny_acc (deny overwrite))
       end)
    rids acc.

(** The value of [base] when [has_channel_perms] reaches its last line. *)
Definition channel_perms (member : Member) (channel : Channel) (guild : Guild)
  : result Permissions :=
  base ← get_guild_perms guild member;
  match permission_overwrites channel !! guild_id guild with
  | None => Raise (KeyError (guild_id guild))
  | Some everyone =>
      let base := _apply_overwrites base (allow everyone) (deny everyone) in
      let '(allow_acc, deny_acc) :=
        union_overwrites channel (role_ids member) (NONE, NONE) in
      let base := _apply_overwrites base allow_acc deny_acc in
      let base :=
        match permission_overwrites channel !! member_id member with
        | Some overwrite =>
            _apply_overwrites base (allow overwrite) (deny overwrite)
        | None => base
        end in
      _ensure_perms base
  end.

Definition has_channel_perms (bot : Bot) (member : Member) (channel : Channel)
    (perms : Permissions) (guild : option Guild) : result bool :=
  _auto_pass_guild
    (fun guild =>
       base ← channel_perms member channel guild;
       Ok (Z.land base perms =? perms))
    bot member guild.

End WithFlags.

End Perms.


(** * bot.py: prefix resolution *)

Module Prefix.

(** Strings are sequences of code points; the embedding covers the code
    points below 256 (one [ascii] each), on which [str.lower],
    [str.isspace] and [str.strip] act as below.  Beyond them [str.lower]
    may also turn one code point into several; the loop of
    [_resolve_prefix] only ever looks at the lower-cased content, and
    [for_prefixes] takes that content as it is. *)

(** [c.isspace()] for one code point: TAB..CR, FS..US, space, NEL, NBSP. *)
Definition isspace (c : ascii) : bool :=
  let n := N_of_ascii c in
  ((9 <=? n) && (n <=? 13) || (28 <=? n) && (n <=? 32)
   || (n =? 133) || (n =? 160))%N.

(** [c.lower()] for one code point: A..Z and the capital letters of
    Latin-1 move 32 places up, every other code point stays. *)
Definition lower_char (c : ascii) : ascii :=
  let n := N_of_ascii c in
  if ((65 <=? n) && (n <=? 90) || (192 <=? n) && (n <=? 222) && negb (n =? 215))%N
  then ascii_of_N (n + 32) else c.

(** [s.lower()] *)
Fixpoint lower (s : string) : string :=
  match s with
  | EmptyString => EmptyString
  | String c s' => String (lower_char c) (lower s')
  end.

(** [s.isspace()]: at least one character, and all of them whitespace. *)
Fixpoint all_space (s : string) : bool :=
  match s with
  | EmptyString => true
  | String c s' => isspace c && all_space s'
  end.

Definition str_isspace (s : string) : bool :=
  match s with
  | EmptyString => false
  | String _ _ => all_space s
  end.

Fixpoint lstrip (s : string) : string :=
  match s with
  | EmptyString => EmptyString
  | String c s' => if isspace c then lstrip s' else s
  end.

Fixpoint rstrip (s : string) : string :=
  match s with
  | EmptyString => EmptyString
  | String c s' =>
      match rstrip s' with
      | EmptyString => if isspace c then EmptyString else String c EmptyString
      | r => String c r
      end
  end.

(** [s.strip()] *)
Definition strip (s : string) : string := rstrip (lstrip s).

(** [s.startswith(p)] *)
Definition startswith (s p : string) : bool := String.prefix p s.

(** [prefixes.sort(key=len, reverse=True)].  Python's sort is stable, with
    [reverse=True] too: the outcome is the list in order of decreasing
    length in which entries of equal length keep their original order.
    Insertion from the right end computes that list. *)
Fixpoint insert_by_len (x : string) (l : list string) : list string :=
  match l with
  | [] => [x]
  | y :: l' =>
      if (String.length y <=? String.length x)%nat then x :: y :: l'
      else y :: insert_by_len x l'
  end.

Definition sort_by_len_reverse (l : list string) : list string :=
  fold_right insert_by_len [] l.

(** The [while] loop of [_resolve_prefix]: as long as the prefix is shorter
    than the content and the character after it is whitespace, that
    character is appended.  Every round makes the prefix one longer, so
    [content_length] rounds are enough ([while_extend_exit] below). *)
Fixpoint while_extend (fuel : nat) (lowered_content prefix : string) : string :=
  match fuel with
  | O => prefix
  | S fuel' =>
      let content_length := String.length lowered_content in
      let prefix_length := String.length prefix in
      let next_char := substring prefix_length 1 lowered_content in
      if (prefix_length <? content_length)%nat && str_isspace next_char
      then while_extend fuel' lowered_content (prefix ++ next_char)%string
      else prefix
  end.

(** The [for prefix in prefixes] loop, returning at the first match. *)
Fixpoint for_prefixes (lowered_content : string) (prefixes : list string)
  : option string :=
  match prefixes with
  | [] => None
  | prefix :: rest =>
      let prefix := strip prefix in
      if startswith lowered_content prefix
      then Some (while_extend (String.length lowered_content)
                   lowered_content prefix)
      else for_prefixes lowered_content rest
  end.

(** What [get_prefix] may hand back: one string or a list of strings. *)
Inductive prefixes_value : Type :=
| PStr (s : string)
| PList (l : list string).

Definition as_list (p : prefixes_value) : list string :=
  match p with
  | PStr s => [s]
  | PList l => l
  end.

(** [_resolve_prefix], given what [get_prefix] returned and
    [message.content]. *)
Definition _resolve_prefix (prefixes : prefixes_value)
    (content : option string) : option string :=
  let prefixes := sort_by_len_reverse (as_list prefixes) in
  match content with
  | Some content => for_prefixes (lower content) prefixes
  | None => None
  end.

(** [resolve] of the specification: candidates and message text. *)
Definition resolve (candidates : list string) (message : string)
  : option string :=
  _resolve_prefix (PList candidates) (Some message).

Record Message :=
  { content : option string; guild_id : option Z; author_id : Z }.

(** The [prefixes] attribute exists only once [_load_prefixes] has run. *)
Record Bot :=
  { default_prefixes : list string;
    prefixes : option (gmap Z (list string)) }.

Definition _get_prefixes (bot : Bot) (message : Message) : list string :=
  match prefixes bot with
  | None => default_prefixes bot
  | Some prefixes =>
      default (default_prefixes bot) (guild_id message ≫= (prefixes !!.))
      ++ default [] (prefixes !! author_id message)
  end.

(** A candidate matches when the lower-cased content starts with it,
    once trimmed. *)
Definition matches (lowered_content : string) (candidate : string) : bool :=
  startswith lowered_content (strip candidate).

(** The string returned when [candidate] is the one that matches. *)
Definition extended (lowered_content : string) (candidate : string) : string :=
  while_extend (String.length lowered_content) lowered_content
    (strip candidate).

(** Selection by the words of the specification: among the candidates
    that satisfy [P], the longest one, and the earliest of the list among
    those of that length. *)
Fixpoint select (P : string -> bool) (l : list string) : option string :=
  match l with
  | [] => None
  | x :: l' =>
      if P x then
        match select P l' with
        | Some y =>
            if (String.length x <? String.length y)%nat then Some y
            else Some x
        | None => Some x
        end
      else select P l'
  end.

(** Decreasing length, as a property of a list. *)
Definition by_len_reverse (l : list string) : Prop :=
  StronglySorted (fun a b => (String.length b <= String.length a)%nat) l.

(** The leading whitespace run of a string. *)
Fixpoint leading_space (s : string) : string :=
  match s with
  | EmptyString => EmptyString
  | String c s' => if isspace c then String c (leading_space s') else EmptyString
  end.

End Prefix.


(** * commands.py: the runnability check of a command *)

Module Commands.

(** What a registered check does with a context: it passes, it fails, or
    it raises. *)
Inductive check_outcome : Type :=
| Passes
| Fails
| Raises (e : exn).

Section WithContext.

(** The invocation context handed to the checks. *)
Variable Context : Type.

Record Check :=
  { check_name : string;
    run_check : Context -> check_outcome }.

(** [disabled] is only annotated on the class: an instance has the
    attribute once it has been assigned, hence the [option]. *)
Record Command :=
  { name : string;
    disabled : option bool;
    _checks : list Check }.

(** The checks evaluated so far, oldest first. *)
Definition log := list string.

(** [getattr(self, "disabled", False)] *)
Definition getattr_disabled (self : Command) : bool :=
  default false (disabled self).

(** Modelled from the spec: the check chain of the base class
    ([lightbulb.commands.Command.is_runnable], not part of this
    repository): the registered checks are evaluated in registration
    order; a check passes, fails with a failure reason naming it, or raises,
    which aborts the chain at once. *)
Fixpoint run_chain (checks : list Check) (context : Context) (evaluated : log)
  : result bool * log :=
  match checks with
  | [] => (Ok true, evaluated)
  | check :: rest =>
      let evaluated := evaluated ++ [check_name check] in
      match run_check check context with
      | Passes => run_chain rest context evaluated
      | Fails => (Raise (CheckFailure (check_name check)), evaluated)
      | Raises e => (Raise e, evaluated)
      end
  end.

Definition super_is_runnable (self : Command) (context : Context)
    (evaluated : log) : result bool * log :=
  run_chain (_checks self) context evaluated.

(** [Command.is_runnable] *)
Definition is_runnable (self : Command) (context : Context) (evaluated : log)
  : result bool * log :=
  if getattr_disabled self
  then (Raise (CheckFailure "Command is disabled."), evaluated)
  else super_is_runnable self context evaluated.

End WithContext.

Arguments check_name {Context} c.
Arguments run_check {Context} c.
Arguments name {Context} c.
Arguments disabled {Context} c.
Arguments _checks {Context} c.
Arguments getattr_disabled {Context} self.
Arguments run_chain {Context} checks context evaluated.
Arguments super_is_runnable {Context} self context evaluated.
Arguments is_runnable {Context} self context evaluated.

End Commands.

(** * bot.py: loading all the plugins *)

Module Plugins.

(** What [load_extensions] prints. *)
Inductive printed : Type :=
| MissingLoadLine (extension : string)
| FailedToLoadLine (extension : string)
| TracebackLines (e : exn).

Section WithLoader.

(** The state the plugin framework keeps (loaded extensions, registered
    commands), and [load_extension], which is the framework's: it returns
    or raises, and leaves a state behind in both cases. *)
Variable State : Type.
Variable load_extension : State -> string -> result unit * State.

(** [load_extensions], over the identifiers [raw_plugins] yields.  The
    [except] clauses catch [ExtensionMissingLoad], [ExtensionAlreadyLoaded]
    and, after them, every other [ExtensionError]; an exception of another
    class is not caught and ends the loop. *)
Fixpoint load_extensions (raw_plugins : list string) (st : State)
    (out : list printed) : result unit * State * list printed :=
  match raw_plugins with
  | [] => (Ok tt, st, out)
  | extension :: rest =>
      match load_extension st extension with
      | (Ok _, st') => load_extensions rest st' out
      | (Raise (ExtensionMissingLoad _), st') =>
          load_extensions rest st' (out ++ [MissingLoadLine extension])
      | (Raise (ExtensionAlreadyLoaded _), st') =>
          load_extensions rest st' out
      | (Raise (ExtensionError x d), st') =>
          load_extensions rest st'
            (out ++ [FailedToLoadLine extension;
                     TracebackLines (ExtensionError x d)])
      | (Raise e, st') => (Raise e, st', out)
      end
  end.

End WithLoader.

Arguments load_extensions {State} load_extension raw_plugins st out.

(** What is reported for one identifier, by the words of the
    specification: a missing load entry point is reported, an identifier
    already loaded is passed over in silence, any other failure is reported
    with its diagnostic. *)
Definition report_of (r : result unit) (extension : string) : list printed :=
  match r with
  | Ok _ => []
  | Raise (ExtensionMissingLoad _) => [MissingLoadLine extension]
  | Raise (ExtensionAlreadyLoaded _) => []
  | Raise e => [FailedToLoadLine extension; TracebackLines e]
  end.

Fixpoint reports {State} (load_extension : State -> string -> result unit * State)
    (raw_plugins : list string) (st : State) : list printed :=
  match raw_plugins with
  | [] => []
  | extension :: rest =>
      let '(r, st') := load_extension st extension in
      report_of r extension ++ reports load_extension rest st'
  end.

(** The exceptions the handlers of [load_extensions] catch. *)
Definition is_extension_error (e : exn) : bool :=
  match e with
  | ExtensionMissingLoad _ | ExtensionAlreadyLoaded _ | ExtensionError _ _ =>
      true
  | _ => false
  end.

End Plugins.

(** * bot.py: the confirmation prompt *)

Module Prompt.

Record Button :=
  { label : string; button_id : string; _is_disabled : bool }.

(** What an [InteractionCreateEvent] carries. *)
Record Interaction :=
  { is_component : bool;   (* isinstance(..., ComponentInteraction) *)
    message_id : Z;
    user_id : Z;
    custom_id : string }.

(** The calls that reach the platform. *)
Inductive action : Type :=
| Send (component : list Button)
| Delete (msg : Z)
| CreateInitialResponse (to : Interaction) (component : list Button).

(** The closure [predicate]: its answer and the new value of the
    [nonlocal confirm]. *)
Definition predicate (msg_id author_id : Z) (confirm : bool)
    (event : Interaction) : bool * bool :=
  if negb (is_component event) then (false, confirm)
  else if negb (message_id event =? msg_id)
          || negb (user_id event =? author_id) then (false, confirm)
  else if String.eqb (custom_id event) "sure" then (true, true)
  else if String.eqb (custom_id event) "nvm" then (true, false)
  else (false, confirm).

(** Modelled from the spec: the bounded wait ([wait_for] of the gateway
    client, not part of this repository), over the interaction events that
    arrive before the timeout: the first event the predicate accepts is
    returned; when none is accepted the wait raises [TimeoutError]. *)
Fixpoint wait_for (events : list Interaction) (msg_id author_id : Z)
    (confirm : bool) : result Interaction * bool :=
  match events with
  | [] => (Raise TimeoutError, confirm)
  | event :: rest =>
      match predicate msg_id author_id confirm event with
      | (true, confirm') => (Ok event, confirm')
      | (false, confirm') => wait_for rest msg_id author_id confirm'
      end
  end.

(** The action row [prompt] builds. *)
Definition buttons : list Button :=
  [ {| label := "Sure"; button_id := "sure"; _is_disabled := false |};
    {| label := "Never mind"; button_id := "nvm"; _is_disabled := false |} ].

Definition disable (c : Button) : Button :=
  {| label := label c; button_id := button_id c; _is_disabled := true |}.

Record outcome :=
  { returned : bool;               (* the value of [return confirm] *)
    suppressed : option exn;       (* what the [return] in [finally] dropped *)
    component : list Button;       (* the action row when the prompt ends *)
    trace : list action }.         (* the calls made, oldest first *)

(** [prompt]: [msg_id] is the id of the message [send] returned, [events]
    the interactions that arrive within [timeout]. *)
Definition prompt (msg_id author_id : Z) (delete_after : bool)
    (events : list Interaction) : result outcome :=
  let component0 := buttons in
  let trace0 := [Send component0] in
  let confirm := false in
  (* try: event = await self.wait_for(...)  except TimeoutError: pass *)
  let '(waited, confirm) := wait_for events msg_id author_id confirm in
  event ←
    match waited with
    | Ok event => Ok (Some event)
    | Raise TimeoutError => Ok None
    | Raise e => Raise e
    end;
  (* try: ... finally: return confirm *)
  if delete_after then
    Ok {| returned := confirm; suppressed := None;
          component := component0; trace := trace0 ++ [Delete msg_id] |}
  else
    let component1 := map disable component0 in
    match event with
    | Some event =>
        Ok {| returned := confirm; suppressed := None;
              component := component1;
              trace := trace0 ++ [CreateInitialResponse event component1] |}
    | None =>
        (* [event] was never bound *)
        Ok {| returned := confirm;
              suppressed := Some (UnboundLocalError "event");
              component := component1; trace := trace0 |}
    end.

End Prompt.

(** * The layering of the specification, for comparison with the code *)

Module Layers.
Import Perms.

(** The overwrites the channel has for the roles the member holds. *)
Definition role_overwrites (channel : Channel) (member : Member)
  : list Overwrite :=
  omap (fun rid => permission_overwrites channel !! rid) (role_ids member).

(** The union of a field over a list of overwrites. *)
Definition union_of (field : Overwrite -> Permissions) (ows : list Overwrite)
  : Permissions :=
  foldr (fun ow acc => Z.lor (field ow) acc) 0 ows.

Section WithFlags.

Variable F : Flags.

(** Clearing the flags of [m] in [p]. *)
Definition clear (p m : Permissions) : Permissions :=
  Z.land p (invert F m).

(** One layer: deny bits removed, then allow bits added. *)
Definition layer (base allow_set deny_set : Permissions) : Permissions :=
  Z.lor (clear base deny_set) allow_set.

(** Everyone overwrite, then the held roles' overwrites combined, then the
    member's own overwrite when there is one. *)
Definition layers (base : Permissions) (everyone : Overwrite)
    (channel : Channel) (member : Member) : Permissions :=
  let after_everyone := layer base (allow everyone) (deny everyone) in
  let after_roles :=
    layer after_everyone
      (union_of allow (role_overwrites channel member))
      (union_of deny (role_overwrites channel member)) in
  match permission_overwrites channel !! member_id member with
  | Some own => layer after_roles (allow own) (deny own)
  | None => after_roles
  end.

(** The four message permissions cleared one after the other. *)
Definition strip_send (p : Permissions) : Permissions :=
  clear (clear (clear (clear p SEND_TTS_MESSAGES) MENTION_ROLES) EMBED_LINKS)
    ATTACH_FILES.

(** The stripping rule, by the words of the specification: a set without
    SEND_MESSAGES loses the four message permissions, and a set without
    VIEW_CHANNEL loses the bits of the channel-dependent mask. *)
Definition stripping_rule (p : Permissions) : Permissions :=
  let p := if Z.land p SEND_MESSAGES =? 0 then strip_send p else p in
  if Z.land p VIEW_CHANNEL =? 0 then clear p CHANNEL_DEPENDENT else p.

(** The layers, and then the stripping rule. *)
Definition layered (base : Permissions) (everyone : Overwrite)
    (channel : Channel) (member : Member) : Permissions :=
  stripping_rule (layers base everyone channel member).

End WithFlags.

End Layers.

(** * Sample data *)

Module Samples.
Import Perms.

(** An enumeration that declares the flags of the bits 0 to 32. *)
Definition flags33 : Flags :=
  {| everything := ALL; named_known := eq_refl |}.

(** A guild owned by member 7, whose everyone role grants nothing. *)
Definition guild1 : Guild :=
  {| guild_id := 1; owner_id := 7;
     roles := {[ 1 := {| role_id := 1; role_permissions := NONE |} ]} |}.

Definition owner7 : Member :=
  {| member_id := 7; member_guild_id := 1; role_ids := [] |}.

(** Member 8 holds role 2, which the guild does not have, and role 3. *)
Definition guild2 : Guild :=
  {| guild_id := 1; owner_id := 7;
     roles := {[ 1 := {| role_id := 1; role_permissions := VIEW_CHANNEL |};
                 3 := {| role_id := 3;
                         role_permissions := Z.lor SEND_MESSAGES EMBED_LINKS |} ]} |}.

Definition member8 : Member :=
  {| member_id := 8; member_guild_id := 1; role_ids := [2; 3] |}.

(** A member holding the administrator role 4 of [guild3]. *)
Definition guild3 : Guild :=
  {| guild_id := 1; owner_id := 7;
     roles := {[ 1 := {| role_id := 1; role_permissions := NONE |};
                 4 := {| role_id := 4; role_permissions := ADMINISTRATOR |} ]} |}.

Definition admin9 : Member :=
  {| member_id := 9; member_guild_id := 1; role_ids := [4] |}.

(** The everyone overwrite of this channel denies SEND_MESSAGES. *)
Definition muted_channel : Channel :=
  {| channel_id := 5; channel_guild_id := 1;
     permission_overwrites :=
       {[ 1 := {| ow_id := 1; allow := NONE; deny := SEND_MESSAGES |} ]} |}.

(** A channel with overwrites for role 3 and member 8, and for everyone. *)
Definition busy_channel : Channel :=
  {| channel_id := 6; channel_guild_id := 1;
     permission_overwrites :=
       {[ 1 := {| ow_id := 1; allow := NONE; deny := EMBED_LINKS |};
          3 := {| ow_id := 3; allow := ATTACH_FILES; deny := NONE |};
          8 := {| ow_id := 8; allow := EMBED_LINKS; deny := ATTACH_FILES |} ]} |}.

(** A channel that the everyone overwrite hides: it denies VIEW_CHANNEL. *)
Definition hidden_channel : Channel :=
  {| channel_id := 7; channel_guild_id := 1;
     permission_overwrites :=
       {[ 1 := {| ow_id := 1; allow := NONE; deny := VIEW_CHANNEL |} ]} |}.

(** A channel without any overwrite. *)
Definition plain_channel : Channel :=
  {| channel_id := 9; channel_guild_id := 1; permission_overwrites := ∅ |}.

Definition no_cache : Bot := {| cache := ∅ |}.

(** A bot with prefixes registered for guild 10 and for user 20, and a
    message of that user in that guild. *)
Definition prefix_bot : Prefix.Bot :=
  {| Prefix.default_prefixes := ["nokari"; "n!"]%string;
     Prefix.prefixes :=
       Some {[ 10 := ["ab"; "?"]%string; 20 := ["xy"; "a"]%string ]} |}.

Definition message1 : Prefix.Message :=
  {| Prefix.content := Some "abc"%string;
     Prefix.guild_id := Some 10;
     Prefix.author_id := 20 |}.

(** A loader over the identifiers loaded so far, in which loading b raises
    [e] and loading anything else goes through. *)
Definition loader_b_raises (e : exn) (loaded : list string)
    (extension : string) : result unit * list string :=
  if String.eqb extension "b" then (Raise e, loaded)
  else (Ok tt, (loaded ++ [extension])%list).

(** A command that is disabled, with a check that raises and one that
    fails; the same command enabled. *)
Definition raising_check : Commands.Check unit :=
  {| Commands.check_name := "raises";
     Commands.run_check := fun _ => Commands.Raises (OtherException "oops") |}.

Definition failing_check : Commands.Check unit :=
  {| Commands.check_name := "owner_only";
     Commands.run_check := fun _ => Commands.Fails |}.

Definition disabled_command : Commands.Command unit :=
  {| Commands.name := "ping"; Commands.disabled := Some true;
     Commands._checks := [raising_check; failing_check] |}.

Definition enabled_command : Commands.Command unit :=
  {| Commands.name := "ping"; Commands.disabled := None;
     Commands._checks := [raising_check; failing_check] |}.

(** Interactions on message 100: the author 7 confirming, somebody else
    confirming. *)
Definition author_confirms : Prompt.Interaction :=
  {| Prompt.is_component := true; Prompt.message_id := 100;
     Prompt.user_id := 7; Prompt.custom_id := "sure" |}.

Definition stranger_confirms : Prompt.Interaction :=
  {| Prompt.is_component := true; Prompt.message_id := 100;
     Prompt.user_id := 8; Prompt.custom_id := "sure" |}.

End Samples.

(** * commands.py: registering subcommands *)

Module Registry.

(** Modelled from the spec: the command node of the framework
    ([lightbulb.commands.Command] and [Group], not part of this
    repository): a node has a name, aliases, a list of checks that is empty
    when the node is built, and, for a group, a mapping from names and
    aliases to its subcommands and the set of them.  The mapping of a group
    built with [insensitive_commands] set does not tell apart keys that
    differ in case only; the mapping of any other group is a plain
    dictionary.  As members of a set, two commands are the same when their
    names are equal.  Nodes are objects: they live in a store and are
    referred to by their position in it, so that the name and the aliases
    of a subcommand lead to one and the same node. *)
Record Node :=
  { name : string;
    allow_extra_arguments : bool;
    aliases : list string;
    hidden : bool;
    usage : option string;
    parent : option nat;
    _checks : list string;
    is_group : bool;
    insensitive_commands : bool;
    inherit_checks : bool;
    _subcommands : gmap string nat;
    subcommands : list nat }.

Definition Store := list Node.

(** [name or func.__name__]: a missing name and an empty one both give way
    to the name of the function. *)
Definition name_or (name : option string) (func_name : string) : string :=
  match name with
  | Some n => if String.eqb n "" then func_name else n
  | None => func_name
  end.

(** [aliases or []] *)
Definition aliases_or (aliases : option (list string)) : list string :=
  default [] aliases.

(** The arguments of [Group.command] and [Group.group] that reach the
    constructor. *)
Record Options :=
  { opt_name : option string;
    opt_allow_extra_arguments : bool;
    opt_aliases : option (list string);
    opt_hidden : bool;
    opt_usage : option string }.

(** A node with another mapping and set of subcommands, and a node with
    another list of checks. *)
Definition with_subcommands (g : Node) (m : gmap string nat) (l : list nat)
  : Node :=
  {| name := name g; allow_extra_arguments := allow_extra_arguments g;
     aliases := aliases g; hidden := hidden g; usage := usage g;
     parent := parent g; _checks := _checks g; is_group := is_group g;
     insensitive_commands := insensitive_commands g;
     inherit_checks := inherit_checks g;
     _subcommands := m; subcommands := l |}.

Definition with_checks (c : Node) (checks : list string) : Node :=
  {| name := name c; allow_extra_arguments := allow_extra_arguments c;
     aliases := aliases c; hidden := hidden c; usage := usage c;
     parent := parent c; _checks := checks; is_group := is_group c;
     insensitive_commands := insensitive_commands c;
     inherit_checks := inherit_checks c;
     _subcommands := _subcommands c; subcommands := subcommands c |}.

(** [child._checks.extend(checks)] *)
Definition extend_checks (child : nat) (checks : list string) (store : Store)
  : Store :=
  match store !! child with
  | Some c => <[child := with_checks c (_checks c ++ checks)]> store
  | None => store
  end.

(** The node at [i] is named [n]. *)
Definition named (store : Store) (n : string) (i : nat) : bool :=
  match store !! i with
  | Some c => String.eqb (name c) n
  | None => false
  end.

(** [self.subcommands.add(child)]: nothing is added when the set already
    has a command of that name. *)
Definition add_subcommand (self : nat) (child : nat) (store : Store) : Store :=
  match store !! self, store !! child with
  | Some g, Some c =>
      if existsb (named store (name c)) (subcommands g) then store
      else <[self := with_subcommands g (_subcommands g)
                       (subcommands g ++ [child])]> store
  | _, _ => store
  end.

Section WithCasefold.

(** What the mapping of a case-insensitive group makes of a key; two keys
    are the same to it when this gives the same. *)
Variable casefold : string -> string.

(** The key under which the mapping of [g] files [key]. *)
Definition key_of (g : Node) (key : string) : string :=
  if insensitive_commands g then casefold key else key.

(** [self._subcommands[key] = child] on the node [self] of the store. *)
Definition set_subcommand (self : nat) (key : string) (child : nat)
    (store : Store) : Store :=
  match store !! self with
  | Some g =>
      <[self := with_subcommands g
                  (<[key_of g key := child]> (_subcommands g))
                  (subcommands g)]> store
  | None => store
  end.

(** [self._subcommands[key]] *)
Definition get_subcommand (store : Store) (self : nat) (key : string)
  : option nat :=
  g ← store !! self; _subcommands g !! key_of g key.

(** The body of [decorate], shared by [Group.command] and [Group.group]:
    [child] is the node the constructor returned. *)
Definition decorate (self : nat) (child : Node) (aliases : option (list string))
    (store : Store) : option (Store * nat) :=
  g ← store !! self;
  let id := length store in
  let store := store ++ [child] in
  let store := set_subcommand self (name child) id store in
  let store :=
    if inherit_checks g then extend_checks id (_checks g) store else store in
  let store := add_subcommand self id store in
  let store :=
    fold_left (fun store alias => set_subcommand self alias id store)
      (aliases_or aliases) store in
  Some (store, id).

(** [Group.command(...)(func)], with the default class of the child. *)
Definition Group_command (self : nat) (o : Options) (func_name : string)
    (store : Store) : option (Store * nat) :=
  decorate self
    {| name := name_or (opt_name o) func_name;
       allow_extra_arguments := opt_allow_extra_arguments o;
       aliases := aliases_or (opt_aliases o);
       hidden := opt_hidden o; usage := opt_usage o;
       parent := Some self; _checks := [];
       is_group := false; insensitive_commands := false;
       inherit_checks := false;
       _subcommands := ∅; subcommands := [] |}
    (opt_aliases o) store.

(** [Group.group(...)(func)] *)
Definition Group_group (self : nat) (o : Options)
    (insensitive inherit : bool) (func_name : string) (store : Store)
  : option (Store * nat) :=
  decorate self
    {| name := name_or (opt_name o) func_name;
       allow_extra_arguments := opt_allow_extra_arguments o;
       aliases := aliases_or (opt_aliases o);
       hidden := opt_hidden o; usage := opt_usage o;
       parent := Some self; _checks := [];
       is_group := true; insensitive_commands := insensitive;
       inherit_checks := inherit;
       _subcommands := ∅; subcommands := [] |}
    (opt_aliases o) store.

End WithCasefold.

(** The module-level [group(...)(func)]: a group without a parent. *)
Definition group (o : Options) (insensitive inherit : bool)
    (func_name : string) : Node :=
  {| name := name_or (opt_name o) func_name;
     allow_extra_arguments := opt_allow_extra_arguments o;
     aliases := aliases_or (opt_aliases o);
     hidden := opt_hidden o; usage := opt_usage o;
     parent := None; _checks := [];
     is_group := true; insensitive_commands := insensitive;
     inherit_checks := inherit;
     _subcommands := ∅; subcommands := [] |}.

End Registry.

(** * admin.py: the eval command's helpers *)

Module Admin.
Local Open Scope string_scope.

(** The statements [insert_returns] tells apart: an expression statement,
    a return, an if with its two bodies, the two kinds of with; any other
    statement is left alone, whatever it holds.  Expressions and headers
    are kept as source text. *)
#[warnings="-register-all"]
Inductive stmt : Type :=
| Expr (value : string)
| Return (value : string)
| If (test : string) (body orelse : list stmt)
| With (items : string) (body : list stmt)
| AsyncWith (items : string) (body : list stmt)
| Other (source : string).

(** What [insert_returns] does to [body[-1]]: the four [if]s of the source
    are exclusive, since a statement turned into a return by the first is
    none of the other kinds. *)
Fixpoint on_last (s : stmt) : stmt :=
  let insert_returns :=
    fix insert_returns (body : list stmt) : list stmt :=
      match body with
      | [] => []
      | s :: rest =>
          match rest with
          | [] => [on_last s]
          | _ :: _ => s :: insert_returns rest
          end
      end in
  match s with
  | Expr value => Return value
  | If test body orelse => If test (insert_returns body) (insert_returns orelse)
  | With items body => With items (insert_returns body)
  | AsyncWith items body => AsyncWith items (insert_returns body)
  | Return _ | Other _ => s
  end.

(** [Admin.insert_returns]: the list after the call.  An empty body is left
    as it is; otherwise only the last statement is looked at. *)
Fixpoint insert_returns (body : list stmt) : list stmt :=
  match body with
  | [] => []
  | s :: rest =>
      match rest with
      | [] => [on_last s]
      | _ :: _ => s :: insert_returns rest
      end
  end.

(** No expression statement is left in a tail position of the body. *)
Fixpoint no_tail_expr (s : stmt) : bool :=
  let tails :=
    fix tails (body : list stmt) : bool :=
      match body with
      | [] => true
      | s :: rest =>
          match rest with
          | [] => no_tail_expr s
          | _ :: _ => tails rest
          end
      end in
  match s with
  | Expr _ => false
  | If _ body orelse => tails body && tails orelse
  | With _ body | AsyncWith _ body => tails body
  | Return _ | Other _ => true
  end.

Fixpoint no_tail_exprs (body : list stmt) : bool :=
  match body with
  | [] => true
  | s :: rest =>
      match rest with
      | [] => no_tail_expr s
      | _ :: _ => no_tail_exprs rest
      end
  end.

(** ** [get_eval_pages] *)

Definition nl : string := String "010"%char EmptyString.

(** A string is truthy when it is not empty. *)
Definition nonempty (s : string) : bool :=
  match s with
  | EmptyString => false
  | String _ _ => true
  end.

Section WithChunk.

(** [utils.chunk(text, n)], which cuts a text into pieces, is not part of
    this repository; it is taken as it comes. *)
Variable chunk : string -> nat -> list string.

(** [fmt_output] before the length test. *)
Definition fmt_output (output error retval : string) (hide_retval : bool)
  : string :=
  ((if nonempty output
    then "Standard Output: ```py" ++ nl ++ output ++ " ```" ++ nl else "")
   ++ (if nonempty error
       then "Standard Error: ```py" ++ nl ++ error ++ " ```" ++ nl else "")
   ++ (if negb (hide_retval || nonempty error)
       then "Return Value: ```py" ++ nl ++ retval ++ "```" ++ nl else ""))%string.

(** One round of the loop over [enumerate(texts)]. *)
Definition render (has_output has_error : bool) (stdout_end stderr_end : Z)
    (measured_time : string) (total : nat) (idx : nat) (page : string)
  : string :=
  let fmt :=
    if has_output && (Z.of_nat idx <=? stdout_end)%Z then "Standard Output: "
    else if has_error && (Z.of_nat idx <=? stderr_end)%Z then "Standard Error: "
    else "Return Value: " in
  (fmt ++ "```py" ++ nl ++ page ++ "```" ++ nl ++ measured_time ++ " | "
   ++ pretty.pretty (S idx) ++ "/" ++ pretty.pretty total)%string.

Fixpoint pages_from (has_output has_error : bool) (stdout_end stderr_end : Z)
    (measured_time : string) (total : nat) (idx : nat) (texts : list string)
  : list string :=
  match texts with
  | [] => []
  | page :: rest =>
      render has_output has_error stdout_end stderr_end measured_time
        total idx page
      :: pages_from has_output has_error stdout_end stderr_end measured_time
           total (S idx) rest
  end.

Definition chunked (text : string) (max_char : nat) : list string :=
  if nonempty text then chunk (Prefix.strip text) max_char else [].

Definition truthy_list {A} (l : list A) : bool :=
  match l with
  | [] => false
  | _ :: _ => true
  end.

Definition get_eval_pages (output error retval : string) (hide_retval : bool)
    (measured_time : string) (max_char : nat) : option (list string) :=
  let fmt := fmt_output output error retval hide_retval in
  let append_retval := negb (hide_retval || nonempty error) in
  if negb (nonempty fmt) then None
  else if (String.length fmt <? max_char)%nat
  then Some [(fmt ++ measured_time)%string]
  else
    let chunked_output := chunked output max_char in
    let chunked_error := chunked error max_char in
    let stdout_end := (Z.of_nat (length chunked_output) - 1)%Z in
    let stderr_end := (stdout_end + Z.of_nat (length chunked_error))%Z in
    let texts := (chunked_output ++ chunked_error)%list in
    let texts :=
      if append_retval then (texts ++ chunk retval max_char)%list
      else texts in
    Some (pages_from (truthy_list chunked_output) (truthy_list chunked_error)
            stdout_end stderr_end measured_time (length texts) 0 texts).

(** A page under a given heading, numbered [idx + 1] of [total]. *)
Definition page_of (heading measured_time : string) (total idx : nat)
    (text : string) : string :=
  (heading ++ "```py" ++ nl ++ text ++ "```" ++ nl ++ measured_time ++ " | "
   ++ pretty.pretty (S idx) ++ "/" ++ pretty.pretty total)%string.

(** The pieces of a list under one heading, numbered from [start]. *)
Fixpoint pages_of (heading measured_time : string) (total start : nat)
    (texts : list string) : list string :=
  match texts with
  | [] => []
  | text :: rest =>
      page_of heading measured_time total start text
      :: pages_of heading measured_time total (S start) rest
  end.

End WithChunk.

End Admin.

(** * bot.py: which interactions the prompt listens to *)

Module PromptEvents.
Import Prompt.

(** The interactions the predicate of [prompt] accepts: a component
    interaction on the prompt message, by the author, with one of the two
    button ids. *)
Definition relevant (msg_id author_id : Z) (event : Interaction) : bool :=
  is_component event
  && (message_id event =? msg_id) && (user_id event =? author_id)
  && (String.eqb (custom_id event) "sure"
      || String.eqb (custom_id event) "nvm").

(** The answer the first accepted interaction gives; false when there is
    none. *)
Definition answer (msg_id author_id : Z) (events : list Interaction) : bool :=
  match List.filter (relevant msg_id author_id) events with
  | [] => false
  | event :: _ => String.eqb (custom_id event) "sure"
  end.

End PromptEvents.

(** * __main__.py: the start-up check of the environment *)

Module Main.
Local Open Scope string_scope.

(** The variables the [for] loop of the module goes through, in order. *)
Definition required : list string :=
  ["DISCORD_BOT_TOKEN"; "POSTGRESQL_DSN";
   "SPOTIPY_CLIENT_ID"; "SPOTIPY_CLIENT_SECRET"].

(** The loop: the first variable that is not in [os.environ] ends it with
    a [RuntimeError]. *)
Fixpoint check_env (vars : list string) (environ : gset string) : result unit :=
  match vars with
  | [] => Ok tt
  | var :: rest =>
      if decide (var ∈ environ) then check_env rest environ
      else Raise (RuntimeError (var ++ " env variable must be set."))
  end.

End Main.

(** * bot.py: the plugin identifiers and the reload of modules *)

Module BotFiles.
Local Open Scope string_scope.

(** [s.endswith(suffix)] *)
Definition endswith (s suffix : string) : bool :=
  (String.length suffix <=? String.length s)%nat
  && String.eqb
       (substring (String.length s - String.length suffix)
          (String.length suffix) s) suffix.

(** [needle in hay] *)
Definition contains (needle hay : string) : bool :=
  match index 0 needle hay with
  | Some _ => true
  | None => false
  end.

Definition is_slash (c : ascii) : bool := Ascii.eqb c "/"%char.

Fixpoint lstrip_slash (s : string) : string :=
  match s with
  | EmptyString => EmptyString
  | String c s' => if is_slash c then lstrip_slash s' else s
  end.

Fixpoint rstrip_slash (s : string) : string :=
  match s with
  | EmptyString => EmptyString
  | String c s' =>
      match rstrip_slash s' with
      | EmptyString => if is_slash c then EmptyString else String c EmptyString
      | r => String c r
      end
  end.

(** [path.strip('/')] *)
Definition strip_slash (s : string) : string := rstrip_slash (lstrip_slash s).

(** [s.replace('/', '.')] *)
Fixpoint dots (s : string) : string :=
  match s with
  | EmptyString => EmptyString
  | String c s' => String (if is_slash c then "."%char else c) (dots s')
  end.

(** [file[:-3]] *)
Definition stem (file : string) : string :=
  substring 0 (String.length file - 3) file.

(** The condition of the generator expression. *)
Definition is_plugin (path file : string) : bool :=
  endswith file ".py" && negb (contains "__pycache__" path)
  && negb (String.prefix "_" file).

(** [raw_plugins], over what [os.walk] yields: the directories with their
    files (the subdirectory names, the middle component, are not used). *)
Definition raw_plugins (walk : list (string * list string)) : list string :=
  flat_map
    (fun '(path, files) =>
       map (fun file => dots (strip_slash path) ++ "." ++ stem file)
         (List.filter (is_plugin path) files))
    walk.

(** A string without a slash. *)
Fixpoint no_slash (s : string) : bool :=
  match s with
  | EmptyString => true
  | String c s' => negb (is_slash c) && no_slash s'
  end.

(** ** [reload_module] *)

(** [s.split(sep)] for a one-character separator, and [sep.join(l)]. *)
Fixpoint split_on (sep : ascii) (s : string) : list string :=
  match s with
  | EmptyString => [EmptyString]
  | String c s' =>
      match split_on sep s' with
      | [] => [if Ascii.eqb c sep then EmptyString else String c EmptyString]
      | w :: ws =>
          if Ascii.eqb c sep then EmptyString :: w :: ws
          else String c w :: ws
      end
  end.

Fixpoint join (sep : string) (l : list string) : string :=
  match l with
  | [] => EmptyString
  | w :: ws =>
      match ws with
      | [] => w
      | _ :: _ => w ++ sep ++ join sep ws
      end
  end.

(** [".".join(mod.split(".")[:-1])] *)
Definition parent_of (mod_ : string) : string :=
  join "." (removelast (split_on "."%char mod_)).

(** The names the inner loop goes through for one parent: its dotted
    prefixes, the longest first. *)
Definition ancestors (parent : string) : list string :=
  let parent_split := split_on "."%char parent in
  map (fun idx => join "." (take idx parent_split))
    (rev (seq 1 (length parent_split))).

Inductive logged : Type :=
| FailedToReload (mod_ : string)
| FailedToReloadParent (parent : string).

Section WithReload.

(** [sys.modules[name]] followed by [importlib.reload]: it goes through
    ([None]) or raises, and then the name of the class of the exception is
    what is kept.  Both act on the interpreter, the [World]. *)
Variable World : Type.
Variable reload : World -> string -> option string * World.

Record progress :=
  { failed : gset (string * string);
    parents : gset string;
    log : list logged;
    world : World }.

(** One round of the first loop. *)
Definition reload_one (p : progress) (mod_ : string) : progress :=
  let parents := {[ parent_of mod_ ]} ∪ parents p in
  match reload (world p) mod_ with
  | (None, w) =>
      {| failed := failed p; parents := parents; log := log p; world := w |}
  | (Some e, w) =>
      {| failed := {[ (mod_, e) ]} ∪ failed p; parents := parents;
         log := log p ++ [FailedToReload mod_]; world := w |}
  end.

(** One round of the inner loop of the second loop. *)
Definition reload_ancestor (parent : string) (p : progress) (name : string)
  : progress :=
  match reload (world p) name with
  | (None, w) =>
      {| failed := failed p; parents := parents p; log := log p; world := w |}
  | (Some _, w) =>
      {| failed := failed p; parents := parents p;
         log := log p ++ [FailedToReloadParent parent]; world := w |}
  end.

Definition reload_parent (p : progress) (parent : string) : progress :=
  fold_left (reload_ancestor parent) (ancestors parent) p.

(** [modules ^ {x[0] for x in failed}] *)
Definition loaded_of (modules : gset string) (failed : gset (string * string))
  : gset string :=
  let names : gset string := set_map fst failed in
  (modules ∖ names) ∪ (names ∖ modules).

Definition nl : string := String "010"%char EmptyString.

(** [reload_module]: the sets it ends with, the text it responds with and
    what it logged.  A set is gone through in the order of [elements]. *)
Record reloaded :=
  { loaded : gset string;
    not_loaded : gset (string * string);
    response : string;
    final : progress }.

Definition reload_module (modules : list string) (w : World) : reloaded :=
  let modules : gset string := list_to_set modules in
  let p := {| failed := ∅; parents := ∅; log := []; world := w |} in
  let p := fold_left reload_one (elements modules) p in
  let p := fold_left reload_parent (elements (parents p)) p in
  let loaded := loaded_of modules (failed p) in
  let loaded_text := join nl (map (fun i => "+ " ++ i) (elements loaded)) in
  let failed_text :=
    join nl (map (fun '(m, e) => "- " ++ m ++ " " ++ e)
               (elements (failed p))) in
  {| loaded := loaded; not_loaded := failed p;
     response := "```diff" ++ nl ++ loaded_text ++ nl ++ failed_text ++ "```";
     final := p |}.

End WithReload.

Arguments failed {World} p.
Arguments parents {World} p.
Arguments log {World} p.
Arguments world {World} p.
Arguments reload_one {World} reload p mod_.
Arguments reload_ancestor {World} reload parent p name.
Arguments reload_parent {World} reload p parent.
Arguments loaded {World} r.
Arguments not_loaded {World} r.
Arguments response {World} r.
Arguments final {World} r.
Arguments reload_module {World} reload modules w.

(** A name without a dot. *)
Fixpoint no_dot (s : string) : bool :=
  match s with
  | EmptyString => true
  | String c s' => negb (Ascii.eqb c "."%char) && no_dot s'
  end.

(** Every module listed as failed is listed with one class name. *)
Definition one_class (failed : gset (string * string)) : Prop :=
  forall m e e', (m, e) ∈ failed -> (m, e') ∈ failed -> e = e'.

End BotFiles.

(** * admin.py and bot.py: the note a restart leaves for the next start *)

Module Restart.
Local Open Scope string_scope.

(** What [restart] writes to [tmp/restarting]:
    [f"{msg.channel_id}-{msg.id}"]; the ids are non-negative integers. *)
Definition restart_note (channel_id id : N) : string :=
  pretty.pretty channel_id ++ "-" ++ pretty.pretty id.

(** What [start] does with the file: nothing when it is missing or empty;
    otherwise it calls [edit_message] with the pieces of [raw.split("-")]
    followed by the text [Successfully restarted!]; the arguments are
    returned. *)
Definition restarted (file : option string) : option (list string) :=
  match file with
  | None => None
  | Some raw =>
      if Admin.nonempty raw
      then Some (BotFiles.split_on "-"%char raw
                 ++ ["Successfully restarted!"])%list
      else None
  end.

(** A string without a given character. *)
Fixpoint without (sep : ascii) (s : string) : bool :=
  match s with
  | EmptyString => true
  | String c s' => negb (Ascii.eqb c sep) && without sep s'
  end.

End Restart.

(** * More sample data *)

Module Samples2.

(** A store holding one group, music, with two checks. *)
Definition music : Registry.Node :=
  Registry.with_checks
    (Registry.group
       {| Registry.opt_name := Some "music"%string;
          Registry.opt_allow_extra_arguments := true;
          Registry.opt_aliases := None; Registry.opt_hidden := false;
          Registry.opt_usage := None |} false true "music_group"%string)
    ["owner_only"; "cooldown"]%string.

Definition store1 : Registry.Store := [music].

(** The same group, built case-insensitive. *)
Definition music_ci : Registry.Node :=
  Registry.with_checks
    (Registry.group
       {| Registry.opt_name := Some "music"%string;
          Registry.opt_allow_extra_arguments := true;
          Registry.opt_aliases := None; Registry.opt_hidden := false;
          Registry.opt_usage := None |} true true "music_group"%string)
    ["owner_only"; "cooldown"]%string.

Definition store2 : Registry.Store := [music_ci].

Definition track_options : Registry.Options :=
  {| Registry.opt_name := Some "track"%string;
     Registry.opt_allow_extra_arguments := true;
     Registry.opt_aliases := Some ["song"]%string;
     Registry.opt_hidden := false; Registry.opt_usage := None |}.

Definition track_again : Registry.Options :=
  {| Registry.opt_name := None;
     Registry.opt_allow_extra_arguments := true;
     Registry.opt_aliases := None;
     Registry.opt_hidden := false; Registry.opt_usage := None |}.

(** A sample [chunk]: pieces of [n] characters ([fuel] bounds their
    number). *)
Fixpoint chunk_fuel (fuel : nat) (text : string) (n : nat) : list string :=
  match fuel with
  | O => []
  | S fuel' =>
      match text with
      | EmptyString => []
      | String _ _ =>
          substring 0 n text
          :: chunk_fuel fuel' (substring n (String.length text - n) text) n
      end
  end.

Definition chunk_by (text : string) (n : nat) : list string :=
  chunk_fuel (String.length text) text n.

(** What [os.walk] may yield for the plugin directory. *)
Definition walk1 : list (string * list string) :=
  [ ("nokari/plugins/", ["api.py"; "__init__.py"]);
    ("nokari/plugins/extras", ["admin.py"; "_eval_globals.py"; "notes.txt"]);
    ("nokari/plugins/extras/__pycache__", ["admin.py"]) ]%string.

(** An interpreter in which reloading nokari.utils fails and everything
    else goes through; the world counts the reloads. *)
Definition reload1 (w : nat) (name : string) : option string * nat :=
  (if String.eqb name "nokari.utils" then Some "KeyError"%string else None,
   S w).

(** A body that ends in an if whose branches end in expressions. *)
Definition body1 : list Admin.stmt :=
  [ Admin.Other "x = 1";
    Admin.If "x"
      [Admin.Other "y = 2"; Admin.Expr "y"]
      [Admin.With "open(f) as fp" [Admin.Expr "fp.read()"]] ]%string.

End Samples2.

(** * Properties of perms.py *)

(** Equalities between bit sets are settled bit by bit. *)
Ltac bits n :=
  apply Z.bits_inj'; intros n ?;
  repeat first [ rewrite Z.land_spec | rewrite Z.lor_spec
               | rewrite Z.lnot_spec by assumption | rewrite Z.bits_0 ].

Ltac bit_of H n :=
  let Hb := fresh "Hb" in
  assert (Hb := f_equal (fun z => Z.testbit z n) H); cbv beta in Hb;
  repeat first [ rewrite Z.land_spec in Hb | rewrite Z.lor_spec in Hb
               | rewrite Z.lnot_spec in Hb by assumption
               | rewrite Z.bits_0 in Hb ].

Ltac bit_cases :=
  repeat match goal with
         | H : context [Z.testbit _ _] |- _ => revert H
         end;
  repeat match goal with
         | |- context [Z.testbit ?x ?m] => destruct (Z.testbit x m)
         end;
  cbn; intros; congruence.

Section PermsFacts.
Import Perms Layers Samples.

Variable F : Flags.

Lemma not_truthy_iff p : negb (truthy p) = true <-> p = 0.
Proof.
  unfold truthy. rewrite negb_involutive. apply Z.eqb_eq.
Qed.

Lemma truthy_iff p : negb (truthy p) = false <-> p <> 0.
Proof.
  unfold truthy. rewrite negb_involutive. apply Z.eqb_neq.
Qed.

Lemma land_lnot_id r m : Z.land r m = 0 -> Z.land r (Z.lnot m) = r.
Proof.
  intros H. bits n. bit_of H n. bit_cases.
Qed.

Lemma contains_trans x a b :
  Z.land x a = a -> Z.land a b = b -> Z.land x b = b.
Proof.
  intros H1 H2. bits n. bit_of H1 n. bit_of H2 n. bit_cases.
Qed.

(** ** Single flags *)

Lemma flag_eqb x k :
  0 <= k -> (Z.land x (2 ^ k) =? 0) = negb (Z.testbit x k).
Proof.
  intros Hk. destruct (Z.testbit x k) eqn:Hx; cbn.
  - apply Z.eqb_neq. intros H.
    assert (Hb := f_equal (fun z => Z.testbit z k) H). cbv beta in Hb.
    rewrite Z.land_spec, Hx, Z.pow2_bits_true, Z.bits_0 in Hb by exact Hk.
    discriminate.
  - apply Z.eqb_eq. apply Z.bits_inj'. intros n Hn.
    rewrite Z.land_spec, Z.bits_0, Z.pow2_bits_eqb by exact Hk.
    destruct (Z.eqb_spec k n) as [<-|]; [now rewrite Hx | apply andb_false_r].
Qed.

Lemma flag_absent x k : 0 <= k -> Z.land x (2 ^ k) = 0 <-> Z.testbit x k = false.
Proof.
  intros Hk. rewrite <- Z.eqb_eq, flag_eqb by exact Hk.
  now destruct (Z.testbit x k).
Qed.

Lemma flag_present x k :
  0 <= k -> Z.land x (2 ^ k) = 2 ^ k <-> Z.testbit x k = true.
Proof.
  intros Hk. split.
  - intros H.
    assert (Hb := f_equal (fun z => Z.testbit z k) H). cbv beta in Hb.
    rewrite Z.land_spec, Z.pow2_bits_true, andb_true_r in Hb by exact Hk.
    exact Hb.
  - intros Hx. apply Z.bits_inj'. intros n Hn.
    rewrite Z.land_spec, Z.pow2_bits_eqb by exact Hk.
    destruct (Z.eqb_spec k n) as [<-|]; [now rewrite Hx | apply andb_false_r].
Qed.

(** A single flag is either absent from a set or contained in it. *)
Lemma flag_nonzero x k : 0 <= k -> Z.land x (2 ^ k) <> 0 -> Z.land x (2 ^ k) = 2 ^ k.
Proof.
  intros Hk H. apply flag_present; [exact Hk|].
  destruct (Z.testbit x k) eqn:Hx; [reflexivity|].
  exfalso. apply H. now apply flag_absent.
Qed.

(** ** The enumeration *)

(** The flags the source names are declared by the enumeration. *)
Lemma known flag : Z.land NAMED flag = flag -> Z.land (everything F) flag = flag.
Proof. apply contains_trans, named_known. Qed.

Lemma known_bit k :
  0 <= k -> Z.land NAMED (2 ^ k) = 2 ^ k -> Z.testbit (everything F) k = true.
Proof.
  intros Hk H. apply flag_present; [exact Hk|]. now apply known.
Qed.

(** ** Clearing flags *)

(** Clearing a mask leaves none of its bits. *)
Lemma clear_mask p m : Z.land (clear F p m) m = 0.
Proof.
  unfold clear, invert. bits n. bit_cases.
Qed.

(** Clearing a mask leaves no bit of a set contained in that mask. *)
Lemma clear_mask_sub p m m' :
  Z.land m' m = m' -> Z.land (clear F p m) m' = 0.
Proof.
  intros H. unfold clear, invert. bits n. bit_of H n. bit_cases.
Qed.

(** Bits that are absent stay absent when more bits are cleared. *)
Lemma clear_keeps_zero p m m' :
  Z.land p m' = 0 -> Z.land (clear F p m) m' = 0.
Proof.
  intros H. unfold clear, invert. bits n. bit_of H n. bit_cases.
Qed.

(** Flags that the enumeration declares and that are not cleared stay as
    they are. *)
Lemma clear_keeps p m v :
  Z.land (everything F) v = v -> Z.land m v = 0 ->
  Z.land (clear F p m) v = Z.land p v.
Proof.
  intros H1 H2. unfold clear, invert. bits n. bit_of H1 n. bit_of H2 n.
  bit_cases.
Qed.

Lemma clear_subset p m : Z.land (clear F p m) p = clear F p m.
Proof.
  unfold clear, invert. bits n. bit_cases.
Qed.

(** Clearing changes nothing in a set of declared flags that has none of
    the cleared ones. *)
Lemma clear_id p m :
  Z.land p (everything F) = p -> Z.land p m = 0 -> clear F p m = p.
Proof.
  intros H1 H2. unfold clear, invert. bits n. bit_of H1 n. bit_of H2 n.
  bit_cases.
Qed.

Lemma clear_known p m : Z.land (clear F p m) (everything F) = clear F p m.
Proof.
  unfold clear, invert. bits n. bit_cases.
Qed.

(** ** The first half of [_ensure_perms] *)

Lemma strip_send_clears p :
  Z.land (strip_send F p) SEND_TTS_MESSAGES = 0 /\
  Z.land (strip_send F p) MENTION_ROLES = 0 /\
  Z.land (strip_send F p) EMBED_LINKS = 0 /\
  Z.land (strip_send F p) ATTACH_FILES = 0.
Proof.
  unfold strip_send. repeat split.
  - do 3 apply clear_keeps_zero. apply clear_mask.
  - do 2 apply clear_keeps_zero. apply clear_mask.
  - apply clear_keeps_zero. apply clear_mask.
  - apply clear_mask.
Qed.

Lemma strip_send_keeps_zero p m :
  Z.land p m = 0 -> Z.land (strip_send F p) m = 0.
Proof.
  intros H. unfold strip_send. now do 4 apply clear_keeps_zero.
Qed.

Lemma strip_send_subset p : Z.land (strip_send F p) p = strip_send F p.
Proof.
  unfold strip_send, clear, invert. bits n. bit_cases.
Qed.

Lemma strip_send_known p :
  Z.land (strip_send F p) (everything F) = strip_send F p.
Proof.
  unfold strip_send. apply clear_known.
Qed.

(** VIEW_CHANNEL and SEND_MESSAGES are declared and are none of the four
    flags cleared. *)
Lemma strip_send_keeps p v :
  Z.land NAMED v = v ->
  Z.land SEND_TTS_MESSAGES v = 0 -> Z.land MENTION_ROLES v = 0 ->
  Z.land EMBED_LINKS v = 0 -> Z.land ATTACH_FILES v = 0 ->
  Z.land (strip_send F p) v = Z.land p v.
Proof.
  intros Hk H1 H2 H3 H4. apply known in Hk. unfold strip_send.
  now rewrite !clear_keeps.
Qed.

Lemma strip_send_view p :
  Z.land (strip_send F p) VIEW_CHANNEL = Z.land p VIEW_CHANNEL.
Proof. now apply strip_send_keeps. Qed.

Lemma strip_send_send p :
  Z.land (strip_send F p) SEND_MESSAGES = Z.land p SEND_MESSAGES.
Proof. now apply strip_send_keeps. Qed.

(** The four flags are cleared once and for all. *)
Lemma strip_send_fixed p :
  Z.land p (everything F) = p ->
  Z.land p SEND_TTS_MESSAGES = 0 -> Z.land p MENTION_ROLES = 0 ->
  Z.land p EMBED_LINKS = 0 -> Z.land p ATTACH_FILES = 0 ->
  strip_send F p = p.
Proof.
  intros Hk H1 H2 H3 H4. unfold strip_send.
  now rewrite (clear_id p SEND_TTS_MESSAGES), (clear_id p MENTION_ROLES),
    (clear_id p EMBED_LINKS), (clear_id p ATTACH_FILES) by assumption.
Qed.

(** ** [_ensure_perms] *)

Lemma _ensure_perms_unfold p :
  _ensure_perms F p =
  let q := if negb (truthy (Z.land p SEND_MESSAGES)) then strip_send F p else p in
  if negb (truthy (Z.land q VIEW_CHANNEL))
  then Raise (AttributeError "value") else Ok q.
Proof. reflexivity. Qed.

(** [_ensure_perms] raises when VIEW_CHANNEL is absent from its argument,
    and otherwise returns it, without the four message permissions when
    SEND_MESSAGES is absent. *)
Lemma _ensure_perms_spec p :
  _ensure_perms F p =
  if Z.land p VIEW_CHANNEL =? 0 then Raise (AttributeError "value")
  else Ok (if Z.land p SEND_MESSAGES =? 0 then strip_send F p else p).
Proof.
  rewrite _ensure_perms_unfold. cbv zeta. unfold truthy.
  rewrite !negb_involutive.
  destruct (Z.land p SEND_MESSAGES =? 0); [rewrite strip_send_view|];
    reflexivity.
Qed.

Lemma _ensure_perms_raises p :
  Z.land p VIEW_CHANNEL = 0 ->
  _ensure_perms F p = Raise (AttributeError "value").
Proof.
  intros H. rewrite _ensure_perms_spec.
  now replace (Z.land p VIEW_CHANNEL =? 0) with true
    by (symmetry; now apply Z.eqb_eq).
Qed.

Lemma _ensure_perms_returns p :
  Z.land p VIEW_CHANNEL <> 0 ->
  _ensure_perms F p
  = Ok (if Z.land p SEND_MESSAGES =? 0 then strip_send F p else p).
Proof.
  intros H. rewrite _ensure_perms_spec.
  now replace (Z.land p VIEW_CHANNEL =? 0) with false
    by (symmetry; now apply Z.eqb_neq).
Qed.

Lemma _ensure_perms_ok p r :
  _ensure_perms F p = Ok r ->
  Z.land p VIEW_CHANNEL <> 0 /\
  r = (if Z.land p SEND_MESSAGES =? 0 then strip_send F p else p).
Proof.
  rewrite _ensure_perms_spec.
  destruct (Z.eqb_spec (Z.land p VIEW_CHANNEL) 0); [discriminate|].
  now intros [= <-].
Qed.

(** What [_ensure_perms] returns is a part of its argument. *)
Lemma _ensure_perms_subset p r : _ensure_perms F p = Ok r -> Z.land r p = r.
Proof.
  intros H. apply _ensure_perms_ok in H as [_ ->].
  destruct (Z.land p SEND_MESSAGES =? 0);
    [apply strip_send_subset | apply Z.land_diag].
Qed.

(** What [_ensure_perms] returns has VIEW_CHANNEL, and without
    SEND_MESSAGES it has none of the four message permissions. *)
Lemma _ensure_perms_stripped p r :
  _ensure_perms F p = Ok r ->
  Z.land r VIEW_CHANNEL = VIEW_CHANNEL /\
  (Z.land r SEND_MESSAGES = 0 ->
   Z.land r SEND_TTS_MESSAGES = 0 /\ Z.land r MENTION_ROLES = 0 /\
   Z.land r EMBED_LINKS = 0 /\ Z.land r ATTACH_FILES = 0).
Proof.
  intros H. apply _ensure_perms_ok in H as [Hv ->]. split.
  - apply (flag_nonzero _ 10); [lia|].
    change (2 ^ 10) with VIEW_CHANNEL.
    destruct (Z.land p SEND_MESSAGES =? 0); [now rewrite strip_send_view|exact Hv].
  - destruct (Z.eqb_spec (Z.land p SEND_MESSAGES) 0) as [Hs|Hs].
    + intros _. apply strip_send_clears.
    + intros H. contradiction.
Qed.

(** A set that has VIEW_CHANNEL and, without SEND_MESSAGES, only declared
    flags and none of the four message permissions, is returned as it is. *)
Lemma _ensure_perms_fixed r :
  Z.land r VIEW_CHANNEL <> 0 ->
  (Z.land r SEND_MESSAGES = 0 ->
   Z.land r (everything F) = r /\
   Z.land r SEND_TTS_MESSAGES = 0 /\ Z.land r MENTION_ROLES = 0 /\
   Z.land r EMBED_LINKS = 0 /\ Z.land r ATTACH_FILES = 0) ->
  _ensure_perms F r = Ok r.
Proof.
  intros Hv Hs. rewrite (_ensure_perms_returns _ Hv). f_equal.
  destruct (Z.eqb_spec (Z.land r SEND_MESSAGES) 0) as [H|H]; [|reflexivity].
  destruct (Hs H) as (H0 & H1 & H2 & H3 & H4). now apply strip_send_fixed.
Qed.

(** The stripping rule of the specification on a set without VIEW_CHANNEL:
    no bit of the channel-dependent mask is left. *)
Lemma stripping_rule_view_absent p :
  Z.land p VIEW_CHANNEL = 0 ->
  Z.land (stripping_rule F p) CHANNEL_DEPENDENT = 0.
Proof.
  intros Hv. unfold stripping_rule.
  set (q := if Z.land p SEND_MESSAGES =? 0 then strip_send F p else p).
  assert (Hq : Z.land q VIEW_CHANNEL = 0).
  { unfold q. destruct (Z.land p SEND_MESSAGES =? 0);
      [now rewrite strip_send_view | exact Hv]. }
  rewrite Hq. cbn [Z.eqb]. apply clear_mask.
Qed.

(** Where [_ensure_perms] returns, it returns what the stripping rule of
    the specification gives. *)
Lemma _ensure_perms_rule p r :
  _ensure_perms F p = Ok r -> r = stripping_rule F p.
Proof.
  intros H. apply _ensure_perms_ok in H as [Hv ->]. unfold stripping_rule.
  set (q := if Z.land p SEND_MESSAGES =? 0 then strip_send F p else p).
  assert (Hq : Z.land q VIEW_CHANNEL = Z.land p VIEW_CHANNEL).
  { unfold q. destruct (Z.land p SEND_MESSAGES =? 0);
      [apply strip_send_view | reflexivity]. }
  rewrite Hq.
  now destruct (Z.eqb_spec (Z.land p VIEW_CHANNEL) 0).
Qed.

(** ** The guild-wide and the channel-scoped computation *)

(** The loop over the held roles accumulates the unions of the allow and
    deny sets of the overwrites found. *)
Lemma union_overwrites_spec channel rids a d :
  union_overwrites channel rids (a, d) =
  (Z.lor a (union_of allow
              (omap (fun rid => permission_overwrites channel !! rid) rids)),
   Z.lor d (union_of deny
              (omap (fun rid => permission_overwrites channel !! rid) rids))).
Proof.
  unfold union_overwrites. revert a d.
  induction rids as [|rid rids IH]; intros a d; cbn.
  - now rewrite !Z.lor_0_r.
  - destruct (permission_overwrites channel !! rid) as [ow|]; cbn.
    + rewrite IH. now rewrite !Z.lor_assoc.
    + apply IH.
Qed.

(** The owner, and a member whose roles carry ADMINISTRATOR, get the full
    set guild-wide. *)
Lemma get_guild_perms_owner guild member :
  owner_id guild = member_id member -> get_guild_perms F guild member = Ok ALL.
Proof.
  intros H. unfold get_guild_perms. now rewrite H, Z.eqb_refl.
Qed.

Lemma has_guild_perms_owner bot guild member perms :
  owner_id guild = member_id member ->
  Z.land ALL perms = perms ->
  has_guild_perms F bot member perms (Some guild) = Ok true.
Proof.
  intros Ho Hp. unfold has_guild_perms, _auto_pass_guild.
  rewrite (get_guild_perms_owner _ _ Ho). cbn.
  f_equal. now apply Z.eqb_eq.
Qed.

(** Without an everyone overwrite the channel-scoped computation ends in
    the lookup error of [channel.permission_overwrites[guild.id]]. *)
Lemma channel_perms_needs_everyone member channel guild base :
  get_guild_perms F guild member = Ok base ->
  permission_overwrites channel !! guild_id guild = None ->
  channel_perms F member channel guild = Raise (KeyError (guild_id guild)).
Proof.
  intros Hb He. unfold channel_perms. rewrite Hb. cbn. now rewrite He.
Qed.

(** With an everyone overwrite, the channel-scoped computation hands the
    layers to [_ensure_perms]. *)
Lemma channel_perms_value member channel guild base everyone :
  get_guild_perms F guild member = Ok base ->
  permission_overwrites channel !! guild_id guild = Some everyone ->
  channel_perms F member channel guild
  = _ensure_perms F (layers F base everyone channel member).
Proof.
  intros Hb He. unfold channel_perms. rewrite Hb. cbn. rewrite He.
  rewrite union_overwrites_spec. unfold NONE. now rewrite !Z.lor_0_l.
Qed.

Lemma layer_testbit base a d n :
  0 <= n ->
  Z.testbit (layer F base a d) n
  = Z.testbit base n && (Z.testbit (everything F) n && negb (Z.testbit d n))
    || Z.testbit a n.
Proof.
  intros Hn. unfold layer, clear, invert.
  now rewrite Z.lor_spec, !Z.land_spec, Z.lnot_spec.
Qed.

(** In [muted_channel] a member without overwrites of its own, who has the
    full set guild-wide, is answered false for SEND_MESSAGES. *)
Lemma muted_channel_refuses bot member guild :
  get_guild_perms F guild member = Ok ALL ->
  guild_id guild = 1 ->
  role_overwrites muted_channel member = [] ->
  permission_overwrites muted_channel !! member_id member = None ->
  has_channel_perms F bot member muted_channel SEND_MESSAGES (Some guild)
  = Ok false.
Proof.
  intros Hb Hg Hr Hm. unfold has_channel_perms, _auto_pass_guild.
  rewrite (channel_perms_value _ _ _ ALL
             {| ow_id := 1; allow := NONE; deny := SEND_MESSAGES |} Hb)
    by now rewrite Hg.
  unfold layers. rewrite Hr, Hm. cbn [union_of foldr allow deny].
  set (x := layer F (layer F ALL NONE SEND_MESSAGES) 0 0).
  assert (Hview : Z.testbit x 10 = true).
  { unfold x. rewrite !layer_testbit by lia.
    rewrite (known_bit 10) by (lia || reflexivity). reflexivity. }
  assert (Hsend : Z.testbit x 11 = false).
  { unfold x. rewrite !layer_testbit by lia.
    rewrite (known_bit 11) by (lia || reflexivity). reflexivity. }
  apply (flag_present x 10) in Hview; [|lia].
  apply (flag_absent x 11) in Hsend; [|lia].
  change (2 ^ 10) with VIEW_CHANNEL in Hview.
  change (2 ^ 11) with SEND_MESSAGES in Hsend.
  rewrite _ensure_perms_returns by (rewrite Hview; discriminate).
  rewrite Hsend. cbn.
  now rewrite (strip_send_keeps_zero _ _ Hsend).
Qed.

(** C1, at the owner of [guild1] (and at the administrator of [guild3]) in
    a channel whose everyone overwrite denies SEND_MESSAGES: guild-wide the
    member has the full set, yet [has_channel_perms] applies the overwrite
    to it and answers false for SEND_MESSAGES. *)
Theorem owner_subject_to_overwrites :
  get_guild_perms F guild1 owner7 = Ok ALL /\
  has_channel_perms F no_cache owner7 muted_channel SEND_MESSAGES (Some guild1)
    = Ok false /\
  get_guild_perms F guild3 admin9 = Ok ALL /\
  has_channel_perms F no_cache admin9 muted_channel SEND_MESSAGES (Some guild3)
    = Ok false.
Proof.
  split; [reflexivity|]. split; [now apply muted_channel_refuses|].
  split; [reflexivity|]. now apply muted_channel_refuses.
Qed.

(** C3, at member 8 of [guild2] in a channel whose everyone overwrite
    denies VIEW_CHANNEL: guild-wide the member has VIEW_CHANNEL,
    SEND_MESSAGES and EMBED_LINKS; the layers are applied in the order of
    the claim and leave a set without VIEW_CHANNEL, on which the stripping
    rule would clear the channel-dependent mask; the code raises
    [AttributeError] at that last step instead of answering. *)
Theorem hidden_channel_raises :
  get_guild_perms F guild2 member8
    = Ok (Z.lor VIEW_CHANNEL (Z.lor SEND_MESSAGES EMBED_LINKS)) /\
  channel_perms F member8 hidden_channel guild2
    = _ensure_perms F
        (layers F (Z.lor VIEW_CHANNEL (Z.lor SEND_MESSAGES EMBED_LINKS))
           {| ow_id := 1; allow := NONE; deny := VIEW_CHANNEL |}
           hidden_channel member8) /\
  has_channel_perms F no_cache member8 hidden_channel SEND_MESSAGES
    (Some guild2) = Raise (AttributeError "value") /\
  Z.land
    (layered F (Z.lor VIEW_CHANNEL (Z.lor SEND_MESSAGES EMBED_LINKS))
       {| ow_id := 1; allow := NONE; deny := VIEW_CHANNEL |}
       hidden_channel member8) CHANNEL_DEPENDENT = 0.
Proof.
  assert (Hb : get_guild_perms F guild2 member8
               = Ok (Z.lor VIEW_CHANNEL (Z.lor SEND_MESSAGES EMBED_LINKS)))
    by reflexivity.
  assert (Hc := channel_perms_value member8 hidden_channel guild2 _
                  {| ow_id := 1; allow := NONE; deny := VIEW_CHANNEL |}
                  Hb eq_refl).
  set (x := layers F _ _ hidden_channel member8) in *.
  assert (Hview : Z.land x VIEW_CHANNEL = 0).
  { apply (flag_absent x 10); [lia|].
    unfold x, layers. cbn [union_of foldr allow deny].
    change (role_overwrites hidden_channel member8) with (@nil Overwrite).
    change (permission_overwrites hidden_channel !! member_id member8)
      with (@None Overwrite).
    cbn [union_of foldr]. rewrite !layer_testbit by lia.
    rewrite (known_bit 10) by (lia || reflexivity). reflexivity. }
  split; [exact Hb|]. split; [exact Hc|]. split.
  - unfold has_channel_perms, _auto_pass_guild.
    now rewrite Hc, (_ensure_perms_raises _ Hview).
  - unfold layered. now apply stripping_rule_view_absent.
Qed.

(** C4, at sets without VIEW_CHANNEL: the stripping rule would clear the
    channel-dependent mask of such a set, [_ensure_perms] raises
    [AttributeError] on it; so does the guild-wide computation for member 8
    in [guild1], whose roles grant nothing.  The sets that [_ensure_perms]
    does return all have VIEW_CHANNEL, and those without SEND_MESSAGES have
    none of the four message permissions. *)
Theorem _ensure_perms_raises_without_view :
  (forall p, Z.land p VIEW_CHANNEL = 0 ->
     _ensure_perms F p = Raise (AttributeError "value")) /\
  (forall p, Z.land p VIEW_CHANNEL = 0 ->
     Z.land (stripping_rule F p) CHANNEL_DEPENDENT = 0) /\
  _ensure_perms F SEND_MESSAGES = Raise (AttributeError "value") /\
  get_guild_perms F guild1 member8 = Raise (AttributeError "value") /\
  (forall p r, _ensure_perms F p = Ok r ->
     Z.land r VIEW_CHANNEL = VIEW_CHANNEL /\
     (Z.land r SEND_MESSAGES = 0 ->
      Z.land r SEND_TTS_MESSAGES = 0 /\ Z.land r MENTION_ROLES = 0 /\
      Z.land r EMBED_LINKS = 0 /\ Z.land r ATTACH_FILES = 0)).
Proof.
  split; [exact _ensure_perms_raises|].
  split; [exact stripping_rule_view_absent|].
  split; [now apply _ensure_perms_raises|].
  split; [reflexivity | exact _ensure_perms_stripped].
Qed.

(** C6, at a channel without overwrites: the guild-wide computation
    succeeds for member 8, and the channel-scoped one ends in the lookup
    error for the everyone overwrite (key: the guild id) instead of
    skipping that layer; the overwrites of the held roles and of the member
    are looked up with a default and may be absent. *)
Theorem missing_everyone_overwrite_raises :
  get_guild_perms F guild2 member8
    = Ok (Z.lor VIEW_CHANNEL (Z.lor SEND_MESSAGES EMBED_LINKS)) /\
  has_channel_perms F no_cache member8 plain_channel VIEW_CHANNEL (Some guild2)
    = Raise (KeyError 1).
Proof. split; reflexivity. Qed.

End PermsFacts.

(** * Properties of the prefix resolver *)

Section PrefixFacts.
Import Prefix.
Local Open Scope string_scope.
Local Open Scope nat_scope.

(** ** Strings *)

Lemma append_nil s : "" ++ s = s.
Proof. reflexivity. Qed.

Lemma append_cons c s t : String c s ++ t = String c (s ++ t).
Proof. reflexivity. Qed.

Lemma append_empty_r s : s ++ "" = s.
Proof.
  induction s as [|c s IH]; [reflexivity | now rewrite append_cons, IH].
Qed.

Lemma append_assoc a b c : (a ++ b) ++ c = a ++ (b ++ c).
Proof.
  induction a as [|x a IH]; [reflexivity | now rewrite !append_cons, IH].
Qed.

Lemma length_append a b :
  String.length (a ++ b) = String.length a + String.length b.
Proof.
  induction a as [|x a IH]; [reflexivity |].
  rewrite append_cons. cbn. now rewrite IH.
Qed.

Lemma startswith_iff s p :
  startswith s p = true <-> exists rest, s = p ++ rest.
Proof.
  unfold startswith. revert s.
  induction p as [|a p IH]; intros s.
  - split; [intros _; now exists s | intros _; now destruct s].
  - destruct s as [|b s]; cbn [String.prefix].
    + split; [discriminate | intros [rest H]; discriminate].
    + destruct (ascii_dec a b) as [->|Hne].
      * rewrite IH. split; intros [rest H]; exists rest.
        -- now rewrite append_cons, H.
        -- rewrite append_cons in H. now injection H.
      * split; [discriminate | intros [rest H]].
        rewrite append_cons in H. injection H as H1 H2. now subst.
Qed.

Lemma substring_next p c r :
  substring (String.length p) 1 (p ++ String c r) = String c "".
Proof.
  induction p as [|x p IH]; [now destruct r | exact IH].
Qed.

(** ** The while loop *)

Lemma leading_space_split rest :
  exists tail, rest = leading_space rest ++ tail /\ leading_space tail = "".
Proof.
  induction rest as [|c r IH]; cbn [leading_space].
  - now exists "".
  - destruct (isspace c) eqn:Hc.
    + destruct IH as (tail & H1 & H2). exists tail.
      now rewrite append_cons, <- H1.
    + exists (String c r). cbn [leading_space]. now rewrite Hc.
Qed.

(** With enough rounds the loop appends exactly the whitespace run that
    follows the prefix. *)
Lemma while_extend_spec fuel : forall p rest,
  String.length rest <= fuel ->
  while_extend fuel (p ++ rest) p = p ++ leading_space rest.
Proof.
  induction fuel as [|fuel IH]; intros p rest Hlen.
  - destruct rest; cbn in Hlen; [cbn; now rewrite append_empty_r | lia].
  - cbn [while_extend]. destruct rest as [|c r].
    + rewrite append_empty_r, Nat.ltb_irrefl. cbn.
      now rewrite append_empty_r.
    + rewrite substring_next, length_append.
      replace (String.length p <? String.length p + String.length (String c r))
        with true by (symmetry; apply Nat.ltb_lt; cbn; lia).
      cbn [andb str_isspace all_space leading_space].
      rewrite andb_true_r. destruct (isspace c).
      * replace (p ++ String c r) with ((p ++ String c "") ++ r)
          by now rewrite append_assoc.
        rewrite IH by (cbn in Hlen; lia).
        now rewrite append_assoc.
      * now rewrite append_empty_r.
Qed.

(** The loop of [_resolve_prefix] has run to its end: the string returned
    is as long as the content, or is followed by a character that is not
    whitespace. *)
Lemma while_extend_exit lowered p rest :
  lowered = p ++ rest ->
  let r := while_extend (String.length lowered) lowered p in
  (String.length r <? String.length lowered)
  && str_isspace (substring (String.length r) 1 lowered) = false.
Proof.
  intros ->. cbv zeta.
  rewrite while_extend_spec by (rewrite length_append; lia).
  destruct (leading_space_split rest) as (tail & H1 & H2).
  rewrite H1 at 2 4. rewrite <- append_assoc.
  destruct tail as [|c t].
  - rewrite append_empty_r, Nat.ltb_irrefl. reflexivity.
  - rewrite substring_next. cbn [leading_space] in H2.
    cbn [str_isspace all_space].
    destruct (isspace c); [discriminate|]. apply andb_false_r.
Qed.

Lemma extended_spec lowered c :
  matches lowered c = true ->
  exists rest, lowered = strip c ++ rest /\
               extended lowered c = strip c ++ leading_space rest.
Proof.
  unfold matches. intros H. apply startswith_iff in H as [rest H].
  exists rest. split; [exact H|].
  unfold extended. rewrite H at 2.
  apply while_extend_spec. rewrite H, length_append. lia.
Qed.

(** ** Lower-casing and whitespace *)

Lemma isspace_lower_char c : isspace (lower_char c) = isspace c.
Proof.
  destruct c as [[] [] [] [] [] [] [] []]; reflexivity.
Qed.

Lemma lower_char_space c : isspace c = true -> lower_char c = c.
Proof.
  destruct c as [[] [] [] [] [] [] [] []]; intros H;
    solve [reflexivity | discriminate H].
Qed.

Lemma lower_append a b : lower (a ++ b) = lower a ++ lower b.
Proof.
  induction a as [|x a IH]; [reflexivity|].
  rewrite append_cons. cbn [lower]. now rewrite append_cons, IH.
Qed.

Lemma length_lower s : String.length (lower s) = String.length s.
Proof. induction s as [|c s IH]; cbn; [reflexivity | now rewrite IH]. Qed.

Lemma leading_space_lower s : leading_space (lower s) = leading_space s.
Proof.
  induction s as [|c s IH]; [reflexivity|].
  cbn [lower leading_space]. rewrite isspace_lower_char.
  destruct (isspace c) eqn:Hc; [|reflexivity].
  now rewrite IH, lower_char_space.
Qed.

Lemma all_space_leading s : all_space (leading_space s) = true.
Proof.
  induction s as [|c s IH]; [reflexivity|].
  cbn [leading_space]. destruct (isspace c) eqn:Hc; [|reflexivity].
  cbn [all_space]. now rewrite Hc, IH.
Qed.

Lemma lower_all_space s : all_space s = true -> lower s = s.
Proof.
  induction s as [|c s IH]; [reflexivity|].
  cbn [all_space lower]. intros [Hc Hs]%andb_true_iff.
  now rewrite lower_char_space, IH.
Qed.

(** ** Trimming *)

Lemma rstrip_empty s : rstrip s = "" -> all_space s = true.
Proof.
  induction s as [|c s IH]; [reflexivity|].
  cbn [rstrip all_space]. destruct (rstrip s); [|discriminate].
  destruct (isspace c); [intros _; now apply IH | discriminate].
Qed.

Lemma lstrip_all_space s : all_space (lstrip s) = true -> all_space s = true.
Proof.
  induction s as [|c s IH]; [reflexivity|].
  cbn [lstrip]. destruct (isspace c) eqn:Hc; [|trivial].
  intros H. cbn [all_space]. now rewrite Hc, IH.
Qed.

Lemma all_space_lstrip s : all_space s = true -> lstrip s = "".
Proof.
  induction s as [|c s IH]; [reflexivity|].
  cbn [all_space lstrip]. intros [Hc Hs]%andb_true_iff.
  rewrite Hc. now apply IH.
Qed.

(** The candidates that trim to the empty string are the empty one and
    those made of whitespace only. *)
Lemma strip_empty_iff s : strip s = "" <-> all_space s = true.
Proof.
  unfold strip. split.
  - intros H. now apply lstrip_all_space, rstrip_empty.
  - intros H. now rewrite all_space_lstrip.
Qed.

(** ** Sorting and selection *)

Lemma insert_by_len_perm x l : Permutation (x :: l) (insert_by_len x l).
Proof.
  induction l as [|y l IH]; cbn [insert_by_len]; [reflexivity|].
  destruct (String.length y <=? String.length x); [reflexivity|].
  rewrite perm_swap. now apply perm_skip.
Qed.

Lemma sort_by_len_reverse_perm l : Permutation l (sort_by_len_reverse l).
Proof.
  induction l as [|x l IH]; cbn; [reflexivity|].
  rewrite <- insert_by_len_perm. now apply perm_skip.
Qed.

Lemma insert_by_len_sorted x l :
  by_len_reverse l -> by_len_reverse (insert_by_len x l).
Proof.
  unfold by_len_reverse.
  induction l as [|y l IH]; intros Hs; cbn [insert_by_len].
  - constructor; constructor.
  - destruct (String.length y <=? String.length x) eqn:Hle.
    + apply Nat.leb_le in Hle. constructor; [exact Hs|].
      constructor; [exact Hle|].
      apply StronglySorted_inv in Hs as [_ Hall].
      eapply Forall_impl; [exact Hall|]. cbn. intros; lia.
    + apply Nat.leb_gt in Hle.
      apply StronglySorted_inv in Hs as [Hs Hall].
      constructor; [now apply IH|].
      rewrite <- insert_by_len_perm. constructor; [lia | exact Hall].
Qed.

Lemma sort_by_len_reverse_sorted l : by_len_reverse (sort_by_len_reverse l).
Proof.
  induction l as [|x l IH]; cbn.
  - constructor.
  - now apply insert_by_len_sorted.
Qed.

(** Stability: the entries of one length keep their order. *)
Lemma insert_by_len_stable n x l :
  List.filter (fun y => String.length y =? n) (insert_by_len x l)
  = List.filter (fun y => String.length y =? n) (x :: l).
Proof.
  induction l as [|y l IH]; cbn [insert_by_len]; [reflexivity|].
  destruct (String.length y <=? String.length x) eqn:Hle; [reflexivity|].
  apply Nat.leb_gt in Hle.
  cbn [List.filter] in *. rewrite IH.
  destruct (String.length x =? n) eqn:Hx, (String.length y =? n) eqn:Hy;
    try reflexivity.
  apply Nat.eqb_eq in Hx, Hy. lia.
Qed.

Lemma sort_by_len_reverse_stable n l :
  List.filter (fun y => String.length y =? n) (sort_by_len_reverse l)
  = List.filter (fun y => String.length y =? n) l.
Proof.
  induction l as [|x l IH]; [reflexivity|].
  cbn [sort_by_len_reverse fold_right].
  rewrite insert_by_len_stable. fold (sort_by_len_reverse l).
  cbn [List.filter]. now rewrite IH.
Qed.

(** The first entry of a list in decreasing length that satisfies [P],
    before and after an insertion. *)
Lemma find_insert_by_len P x l :
  by_len_reverse l ->
  List.find P (insert_by_len x l) =
  if P x then
    match List.find P l with
    | Some y => if String.length x <? String.length y then Some y else Some x
    | None => Some x
    end
  else List.find P l.
Proof.
  unfold by_len_reverse.
  induction l as [|y l IH]; intros Hs; cbn [insert_by_len List.find].
  - now destruct (P x).
  - apply StronglySorted_inv in Hs as [Hs Hall].
    destruct (String.length y <=? String.length x) eqn:Hle.
    + apply Nat.leb_le in Hle. cbn [List.find].
      destruct (P x) eqn:Hx; [|reflexivity].
      destruct (P y) eqn:Hy.
      * now replace (String.length x <? String.length y) with false
          by (symmetry; apply Nat.ltb_ge; lia).
      * destruct (List.find P l) as [z|] eqn:Hz; [|reflexivity].
        apply find_some in Hz as [Hin _].
        rewrite Forall_forall in Hall. apply list_elem_of_In, Hall in Hin.
        now replace (String.length x <? String.length z) with false
          by (symmetry; apply Nat.ltb_ge; lia).
    + apply Nat.leb_gt in Hle. cbn [List.find].
      destruct (P y) eqn:Hy.
      * destruct (P x); [|reflexivity].
        now replace (String.length x <? String.length y) with true
          by (symmetry; apply Nat.ltb_lt; lia).
      * now apply IH.
Qed.

(** Taking the first match of the sorted list is the selection of the
    specification. *)
Lemma find_sort_select P l :
  List.find P (sort_by_len_reverse l) = select P l.
Proof.
  induction l as [|x l IH]; [reflexivity|].
  cbn [sort_by_len_reverse fold_right select].
  rewrite find_insert_by_len by apply sort_by_len_reverse_sorted.
  fold (sort_by_len_reverse l). now rewrite IH.
Qed.

Lemma select_none P l :
  select P l = None <-> forall x, In x l -> P x = false.
Proof.
  induction l as [|x l IH]; cbn [select].
  - split; [intros _ y [] | reflexivity].
  - destruct (P x) eqn:Hx.
    + split.
      * destruct (select P l) as [y|];
          [destruct (String.length x <? String.length y)|]; discriminate.
      * intros H. specialize (H x (or_introl eq_refl)). congruence.
    + rewrite IH. split.
      * intros H y [<-|Hy]; auto.
      * intros H y Hy. apply H. now right.
Qed.

Lemma select_spec P l c :
  select P l = Some c ->
  exists l1 l2,
    l = (l1 ++ c :: l2)%list /\ P c = true /\
    (forall x, In x l1 -> P x = true -> String.length x < String.length c) /\
    (forall x, In x l2 -> P x = true -> String.length x <= String.length c).
Proof.
  revert c. induction l as [|x l IH]; intros c; cbn [select]; [discriminate|].
  destruct (P x) eqn:Hx.
  - destruct (select P l) as [y|] eqn:Hsel.
    + destruct (IH y eq_refl) as (l1 & l2 & -> & Hy & Hbefore & Hafter).
      destruct (String.length x <? String.length y) eqn:Hlt.
      * apply Nat.ltb_lt in Hlt. intros [= <-].
        exists (x :: l1), l2. repeat split; trivial.
        intros z [<-|Hz] Hp; [lia | now apply Hbefore].
      * apply Nat.ltb_ge in Hlt. intros [= <-].
        exists [], (l1 ++ y :: l2)%list. repeat split; trivial.
        -- intros z [].
        -- intros z Hz Hp. apply in_app_or in Hz as [Hz|[<-|Hz]].
           ++ specialize (Hbefore z Hz Hp). lia.
           ++ lia.
           ++ specialize (Hafter z Hz Hp). lia.
    + intros [= <-]. exists [], l. repeat split; trivial.
      * intros z [].
      * intros z Hz Hp. rewrite select_none in Hsel.
        rewrite (Hsel z Hz) in Hp. discriminate.
  - intros Hc. destruct (IH c Hc) as (l1 & l2 & -> & Hy & Hbefore & Hafter).
    exists (x :: l1), l2. repeat split; trivial.
    intros z [<-|Hz] Hp; [congruence | now apply Hbefore].
Qed.

Lemma for_prefixes_find lowered l :
  for_prefixes lowered l
  = option_map (extended lowered) (List.find (matches lowered) l).
Proof.
  induction l as [|c l IH]; [reflexivity|].
  cbn [for_prefixes List.find]. unfold matches at 1.
  destruct (startswith lowered (strip c)); [reflexivity | exact IH].
Qed.

(** [resolve] returns the string for the selected candidate. *)
Lemma resolve_select cands msg :
  resolve cands msg
  = option_map (extended (lower msg)) (select (matches (lower msg)) cands).
Proof.
  unfold resolve, _resolve_prefix. cbn [as_list].
  now rewrite for_prefixes_find, find_sort_select.
Qed.

Lemma resolve_some cands msg c :
  In c cands -> matches (lower msg) c = true ->
  exists r, resolve cands msg = Some r.
Proof.
  intros Hin Hm. rewrite resolve_select.
  destruct (select (matches (lower msg)) cands) as [y|] eqn:Hsel.
  - now eexists.
  - rewrite select_none in Hsel. rewrite (Hsel c Hin) in Hm. discriminate.
Qed.

(** The string for a candidate that matches: the trimmed candidate and the
    whitespace run that follows it in the lower-cased content. *)
Lemma extended_run lowered c :
  matches lowered c = true ->
  exists ws rest,
    lowered = strip c ++ ws ++ rest /\
    all_space ws = true /\ leading_space rest = "" /\
    extended lowered c = strip c ++ ws.
Proof.
  intros Hm. destruct (extended_spec _ _ Hm) as (rest' & Hl & He).
  destruct (leading_space_split rest') as (rest & Hsplit & Hrest).
  exists (leading_space rest'), rest.
  rewrite <- Hsplit. repeat split; trivial.
  apply all_space_leading.
Qed.

(** ** The claims on prefix resolution *)

(** C2, as stated, at the candidates n! and nokari and the message
    [Nokari   ping]: the string returned is cut from the lower-cased
    content, so the capital N is not preserved. *)
Lemma resolve_case_not_preserved :
  resolve ["n!"; "nokari"] "Nokari   ping" = Some "nokari   " /\
  resolve ["n!"; "nokari"] "Nokari   ping" <> Some "Nokari   ".
Proof. split; [reflexivity | discriminate]. Qed.

(** C2, amended: the candidates are tried on the lower-cased content, and
    whatever that content is, when a candidate matches it the string
    returned is a leading part of the lower-cased content: the matched
    candidate, trimmed, followed by the whitespace run that comes right
    after it there.  For the candidates n! and nokari and the message
    [Nokari   ping] it is [nokari   ]. *)
Theorem resolve_returns_lowered_prefix :
  (forall cands lowered,
     (exists c, In c cands /\ matches lowered c = true) ->
     exists r c ws rest,
       for_prefixes lowered (sort_by_len_reverse cands) = Some r /\
       In c cands /\ matches lowered c = true /\
       lowered = strip c ++ ws ++ rest /\
       all_space ws = true /\ leading_space rest = "" /\
       r = strip c ++ ws) /\
  (forall cands msg,
     resolve cands msg
     = for_prefixes (lower msg) (sort_by_len_reverse cands)) /\
  resolve ["n!"; "nokari"] "Nokari   ping" = Some "nokari   ".
Proof.
  split; [|split; reflexivity].
  intros cands lowered (c0 & Hin0 & Hm0).
  rewrite for_prefixes_find, find_sort_select.
  destruct (select (matches lowered) cands) as [c|] eqn:Hc.
  - destruct (select_spec _ _ _ Hc) as (l1 & l2 & -> & Hm & _ & _).
    destruct (extended_run _ _ Hm) as (ws & rest & H1 & H2 & H3 & H4).
    exists (extended lowered c), c, ws, rest.
    repeat split; trivial.
    apply in_or_app. right. now left.
  - rewrite select_none in Hc. rewrite (Hc c0 Hin0) in Hm0. discriminate.
Qed.

Lemma resolve_returns_lowered_prefix_witness :
  exists r c ws rest,
    for_prefixes "nokari   ping" (sort_by_len_reverse ["n!"; "nokari"])
    = Some r /\
    In c ["n!"; "nokari"] /\ matches "nokari   ping" c = true /\
    "nokari   ping" = strip c ++ ws ++ rest /\
    all_space ws = true /\ leading_space rest = "" /\
    r = strip c ++ ws.
Proof.
  apply (proj1 resolve_returns_lowered_prefix).
  exists "nokari". split; [right; left; reflexivity | reflexivity].
Defined.

(** C5: prefix resolution returns the prefix of the longest candidate that
    matches, lengths being those the sort compares, and among the matching
    candidates of that length the one that comes first in the list; when
    nothing is returned no candidate matches.  [_get_prefixes] lists the
    guild's prefixes before the user's, so on a tie the guild's wins.  For
    the candidates a and ab and the message abc the prefix is ab. *)
Theorem resolve_longest_first :
  (forall cands msg r,
     resolve cands msg = Some r ->
     exists l1 c l2,
       cands = (l1 ++ c :: l2)%list /\
       matches (lower msg) c = true /\ r = extended (lower msg) c /\
       (forall x, In x l1 -> matches (lower msg) x = true ->
                  String.length x < String.length c) /\
       (forall x, In x l2 -> matches (lower msg) x = true ->
                  String.length x <= String.length c)) /\
  (forall cands msg,
     resolve cands msg = None ->
     forall c, In c cands -> matches (lower msg) c = false) /\
  (forall bot message table,
     prefixes bot = Some table ->
     _get_prefixes bot message =
     (default (default_prefixes bot) (guild_id message ≫= (table !!.))
      ++ default [] (table !! author_id message))%list) /\
  (forall guild_scoped user_scoped msg r cg,
     resolve (guild_scoped ++ user_scoped)%list msg = Some r ->
     In cg guild_scoped -> matches (lower msg) cg = true ->
     (forall cu, In cu user_scoped -> matches (lower msg) cu = true ->
                 String.length cu <= String.length cg) ->
     exists l1 c l2,
       guild_scoped = (l1 ++ c :: l2)%list /\
       matches (lower msg) c = true /\ r = extended (lower msg) c) /\
  resolve ["a"; "ab"] "abc" = Some "ab".
Proof.
  assert (Hmain : forall cands msg r,
     resolve cands msg = Some r ->
     exists l1 c l2,
       cands = (l1 ++ c :: l2)%list /\
       matches (lower msg) c = true /\ r = extended (lower msg) c /\
       (forall x, In x l1 -> matches (lower msg) x = true ->
                  String.length x < String.length c) /\
       (forall x, In x l2 -> matches (lower msg) x = true ->
                  String.length x <= String.length c)).
  { intros cands msg r Hr. rewrite resolve_select in Hr.
    destruct (select (matches (lower msg)) cands) as [c|] eqn:Hc;
      [|discriminate].
    injection Hr as <-.
    destruct (select_spec _ _ _ Hc) as (l1 & l2 & H).
    exists l1, c, l2. tauto. }
  split; [exact Hmain|]. split; [|split; [|split; [|reflexivity]]].
  - intros cands msg Hr. rewrite resolve_select in Hr.
    destruct (select (matches (lower msg)) cands) eqn:Hc; [discriminate|].
    now apply select_none.
  - intros bot message table Hp. unfold _get_prefixes. now rewrite Hp.
  - intros g u msg r cg Hr Hcg Hmg Hu.
    destruct (Hmain _ _ _ Hr) as (l1 & c & l2 & Heq & Hm & -> & Hb & Ha).
    apply app_eq_app in Heq as [l [[Hg Hc]|[Hl Hc]]].
    + destruct l as [|c' l].
      * cbn in Hc. rewrite app_nil_r in Hg. subst g.
        assert (Hin : In c u) by (rewrite <- Hc; now left).
        specialize (Hb cg Hcg Hmg). specialize (Hu c Hin Hm). lia.
      * injection Hc as <- ->. exists l1, c, l. now rewrite Hg.
    + assert (Hin : In c u) by (rewrite Hc; apply in_or_app; right; now left).
      assert (Hin1 : In cg l1) by (rewrite Hl; apply in_or_app; now left).
      specialize (Hb cg Hin1 Hmg). specialize (Hu c Hin Hm). lia.
Qed.

Lemma resolve_longest_first_witness :
  (exists l1 c l2,
     ["a"; "ab"] = (l1 ++ c :: l2)%list /\
     matches (lower "abc") c = true /\ "ab" = extended (lower "abc") c /\
     (forall x, In x l1 -> matches (lower "abc") x = true ->
                String.length x < String.length c) /\
     (forall x, In x l2 -> matches (lower "abc") x = true ->
                String.length x <= String.length c)) /\
  (exists l1 c l2,
     ["ab"; "?"] = (l1 ++ c :: l2)%list /\
     matches (lower "abc") c = true /\ "ab" = extended (lower "abc") c) /\
  _get_prefixes Samples.prefix_bot Samples.message1 = ["ab"; "?"; "xy"; "a"].
Proof.
  destruct resolve_longest_first as (Hmain & _ & Hget & Hguild & _).
  split; [|split].
  - apply (Hmain ["a"; "ab"] "abc" "ab"). reflexivity.
  - apply (Hguild ["ab"; "?"] ["xy"; "a"] "abc" "ab" "ab").
    + reflexivity.
    + left. reflexivity.
    + reflexivity.
    + intros cu [<-|[<-|[]]] _; cbn; lia.
  - rewrite (Hget Samples.prefix_bot Samples.message1 _ eq_refl).
    vm_compute. reflexivity.
Defined.

(** C10, as stated, at the candidates (empty) and a and the message abc:
    the empty candidate is in the list, yet the prefix returned is a, not
    the leading whitespace run of the message (which is empty). *)
Lemma blank_candidate_not_always_chosen :
  resolve [""; "a"] "abc" = Some "a" /\
  leading_space "abc" = "" /\
  resolve [""; "a"] "abc" <> Some (leading_space "abc").
Proof.
  split; [reflexivity | split; [reflexivity |]].
  intros H. vm_compute in H. discriminate H.
Qed.

(** C10, amended: when the list holds a candidate that is empty or made of
    whitespace only, that candidate trims to the empty string and matches
    every message, its prefix is the leading whitespace run of the message,
    and prefix resolution never returns none.  It returns that whitespace
    run when no other kind of candidate matches; otherwise it returns
    either that run or the prefix of a matching candidate that is not
    blank and at least as long as the blank one. *)
Theorem blank_candidate_always_matches cands msg c :
  In c cands -> all_space c = true ->
  strip c = "" /\
  matches (lower msg) c = true /\
  extended (lower msg) c = leading_space msg /\
  resolve cands msg <> None /\
  ((forall c', In c' cands -> matches (lower msg) c' = true ->
               all_space c' = true) ->
   resolve cands msg = Some (leading_space msg)) /\
  (forall r, resolve cands msg = Some r ->
     r = leading_space msg \/
     exists c', In c' cands /\ all_space c' = false /\
                matches (lower msg) c' = true /\
                String.length c <= String.length c' /\
                r = extended (lower msg) c').
Proof.
  intros Hin Hblank.
  assert (Hstrip : forall b, all_space b = true -> strip b = "")
    by (intros b; apply strip_empty_iff).
  assert (Hmatch : forall b, all_space b = true -> matches (lower msg) b = true).
  { intros b Hb. unfold matches. rewrite (Hstrip b Hb).
    apply startswith_iff. now exists (lower msg). }
  assert (Hext : forall b, all_space b = true ->
                           extended (lower msg) b = leading_space msg).
  { intros b Hb. destruct (extended_spec _ _ (Hmatch b Hb)) as (rest & H1 & H2).
    rewrite (Hstrip b Hb), append_nil in H1, H2. subst rest.
    now rewrite H2, leading_space_lower. }
  assert (Hcases : forall r, resolve cands msg = Some r ->
     r = leading_space msg \/
     exists c', In c' cands /\ all_space c' = false /\
                matches (lower msg) c' = true /\
                String.length c <= String.length c' /\
                r = extended (lower msg) c').
  { intros r Hr. rewrite resolve_select in Hr.
    destruct (select (matches (lower msg)) cands) as [c'|] eqn:Hc;
      [|discriminate].
    injection Hr as <-.
    destruct (select_spec _ _ _ Hc) as (l1 & l2 & Heq & Hm & Hb & Ha).
    destruct (all_space c') eqn:Hs; [left; now apply Hext | right].
    exists c'. repeat split; trivial.
    - rewrite Heq. apply in_or_app. right. now left.
    - rewrite Heq in Hin. apply in_app_or in Hin as [H|[<-|H]].
      + specialize (Hb c H (Hmatch c Hblank)). lia.
      + lia.
      + exact (Ha c H (Hmatch c Hblank)). }
  split; [now apply Hstrip|]. split; [now apply Hmatch|].
  split; [now apply Hext|].
  destruct (resolve_some cands msg c Hin (Hmatch c Hblank)) as [r Hr].
  split; [congruence|]. split; [|exact Hcases].
  intros Hall. rewrite Hr. f_equal.
  destruct (Hcases r Hr) as [->|(c' & Hin' & Hs & Hm & _)]; [reflexivity|].
  rewrite (Hall c' Hin' Hm) in Hs. discriminate.
Qed.

Lemma blank_candidate_always_matches_witness :
  strip "  " = "" /\
  matches (lower "  Hello") "  " = true /\
  extended (lower "  Hello") "  " = leading_space "  Hello" /\
  resolve ["n!"; "  "] "  Hello" <> None /\
  ((forall c', In c' ["n!"; "  "] -> matches (lower "  Hello") c' = true ->
               all_space c' = true) ->
   resolve ["n!"; "  "] "  Hello" = Some (leading_space "  Hello")) /\
  (forall r, resolve ["n!"; "  "] "  Hello" = Some r ->
     r = leading_space "  Hello" \/
     exists c', In c' ["n!"; "  "] /\ all_space c' = false /\
                matches (lower "  Hello") c' = true /\
                String.length "  " <= String.length c' /\
                r = extended (lower "  Hello") c').
Proof.
  apply (blank_candidate_always_matches ["n!"; "  "] "  Hello" "  ").
  - right. left. reflexivity.
  - reflexivity.
Defined.

End PrefixFacts.

(** * Properties of the runnability check *)

Section CommandFacts.
Import Commands.
Local Open Scope string_scope.

Context {Context : Type}.

(** A command that is not disabled runs the chain of the base class. *)
Lemma is_runnable_enabled (self : Command Context) context evaluated :
  getattr_disabled self = false ->
  is_runnable self context evaluated
  = run_chain (_checks self) context evaluated.
Proof. intros H. unfold is_runnable. now rewrite H. Qed.

(** The chain records every check it evaluates: with a check registered,
    the log grows. *)
Lemma run_chain_logs (check : Check Context) rest context evaluated :
  exists more,
    snd (run_chain (check :: rest) context evaluated)
    = (evaluated ++ check_name check :: more)%list.
Proof.
  assert (Hgrow : forall checks ev, exists more,
            snd (run_chain checks context ev) = (ev ++ more)%list).
  { induction checks as [|c checks IH]; intros ev; cbn [run_chain].
    - exists []. cbn. now rewrite app_nil_r.
    - destruct (run_check c context).
      + destruct (IH (ev ++ [check_name c])%list) as [more ->].
        exists (check_name c :: more). now rewrite <- app_assoc.
      + now exists [check_name c].
      + now exists [check_name c]. }
  cbn [run_chain]. destruct (run_check check context).
  - destruct (Hgrow rest (evaluated ++ [check_name check])%list) as [more ->].
    exists more. now rewrite <- app_assoc.
  - now exists [].
  - now exists [].
Qed.

(** C7: for a command whose disabled flag is set, whatever checks are
    registered and in whatever order, the runnability check fails with
    the reason [Command is disabled.] and no check has been evaluated: the
    log of evaluated checks is the one it started with. *)
Theorem disabled_fails_before_checks (self : Command Context) context evaluated :
  disabled self = Some true ->
  is_runnable self context evaluated
  = (Raise (CheckFailure "Command is disabled."), evaluated) /\
  (forall checks,
     is_runnable {| name := name self; disabled := disabled self;
                    _checks := checks |} context evaluated
     = (Raise (CheckFailure "Command is disabled."), evaluated)).
Proof.
  intros H. unfold is_runnable, getattr_disabled. cbn [disabled].
  rewrite H. split; [reflexivity | intros checks; reflexivity].
Qed.

End CommandFacts.

Lemma disabled_fails_before_checks_witness :
  Commands.is_runnable Samples.disabled_command tt []
  = (Raise (CheckFailure "Command is disabled."), []) /\
  (forall checks,
     Commands.is_runnable
       {| Commands.name := Commands.name Samples.disabled_command;
          Commands.disabled := Commands.disabled Samples.disabled_command;
          Commands._checks := checks |} tt []
     = (Raise (CheckFailure "Command is disabled."), [])).
Proof.
  apply (disabled_fails_before_checks Samples.disabled_command tt []).
  reflexivity.
Defined.

(** The same command, enabled, evaluates its first check, which raises. *)
Example enabled_command_runs_checks :
  Commands.is_runnable Samples.enabled_command tt []
  = (Raise (OtherException "oops"), ["raises"%string]).
Proof. reflexivity. Qed.

(** * Properties of the plugin loader *)

Section PluginFacts.
Import Plugins.
Local Open Scope string_scope.

(** As long as every exception that loading an identifier raises is an
    extension error of the plugin framework, [load_extensions] returns:
    every identifier is handed to the loader in turn, whatever happened to
    the ones before; a missing load entry point is reported, an identifier
    already loaded is passed over in silence, any other extension error is
    reported with its diagnostic. *)
Lemma load_extensions_extension_errors
    (State : Type) (load_extension : State -> string -> result unit * State)
    raw_plugins st out :
  (forall s extension e s',
     load_extension s extension = (Raise e, s') ->
     is_extension_error e = true) ->
  load_extensions load_extension raw_plugins st out
  = (Ok tt,
     fold_left (fun s extension => snd (load_extension s extension))
       raw_plugins st,
     (out ++ reports load_extension raw_plugins st)%list).
Proof.
  revert st out.
  induction raw_plugins as [|extension rest IH]; intros st out Hexn.
  - cbn. now rewrite app_nil_r.
  - cbn [load_extensions fold_left reports].
    destruct (load_extension st extension) as [r st'] eqn:Hload.
    cbn [snd].
    destruct r as [[]|e].
    + rewrite IH by exact Hexn. reflexivity.
    + pose proof (Hexn _ _ _ _ Hload) as He.
      destruct e; try discriminate He; rewrite IH by exact Hexn;
        cbn [report_of]; now rewrite <- ?app_assoc.
Qed.

(** C8: an exception that is not an extension error of the framework is
    caught by none of the handlers of [load_extensions]: the operation
    raises it at the identifier whose load raised it, and the identifiers
    after that one are never handed to the loader.  With the identifiers a,
    b and c, when loading b raises such an exception, the operation raises
    with a loaded and c not, and nothing reported; when loading b raises an
    extension error instead, b is reported and c is loaded. *)
Theorem load_extensions_raises_other_exception :
  (forall (State : Type) (load_extension : State -> string -> result unit * State)
          extension rest st out e st',
     load_extension st extension = (Raise e, st') ->
     is_extension_error e = false ->
     load_extensions load_extension (extension :: rest) st out
     = (Raise e, st', out)) /\
  load_extensions (Samples.loader_b_raises (OtherException "ValueError"))
    ["a"; "b"; "c"] [] []
  = (Raise (OtherException "ValueError"), ["a"], []) /\
  load_extensions (Samples.loader_b_raises (ExtensionError "b" "boom"))
    ["a"; "b"; "c"] [] []
  = (Ok tt, ["a"; "c"],
     [FailedToLoadLine "b"; TracebackLines (ExtensionError "b" "boom")]).
Proof.
  split; [|split; reflexivity].
  intros State load_extension extension rest st out e st' Hload He.
  cbn [load_extensions]. rewrite Hload.
  destruct e; try reflexivity; discriminate He.
Qed.

End PluginFacts.

(** * Properties of the confirmation prompt *)

Section PromptFacts.
Import Prompt.
Local Open Scope string_scope.

(** The predicate changes [confirm] only when it accepts the event. *)
Lemma predicate_rejects msg_id author_id confirm event confirm' :
  predicate msg_id author_id confirm event = (false, confirm') ->
  confirm' = confirm.
Proof.
  unfold predicate.
  repeat match goal with
         | |- context [if ?b then _ else _] => destruct b
         end; congruence.
Qed.

(** The wait either hands back an event or times out, and a wait that
    raises leaves [confirm] as it was. *)
Lemma wait_for_raises events msg_id author_id : forall confirm e confirm',
  wait_for events msg_id author_id confirm = (Raise e, confirm') ->
  e = TimeoutError /\ confirm' = confirm.
Proof.
  induction events as [|event rest IH]; intros confirm e confirm';
    cbn [wait_for].
  - now intros [= <- <-].
  - destruct (predicate msg_id author_id confirm event) as [[] c] eqn:Hp.
    + discriminate.
    + apply predicate_rejects in Hp as ->. apply IH.
Qed.

(** On the timeout path, when the message is not to be deleted, the row is
    marked disabled, but [event] is unbound: the update is not sent, and
    the [return] in [finally] discards the error. *)
Lemma prompt_timeout_no_update msg_id author_id events :
  fst (wait_for events msg_id author_id false) = Raise TimeoutError ->
  prompt msg_id author_id false events
  = Ok {| returned := false;
          suppressed := Some (UnboundLocalError "event");
          component := map disable buttons;
          trace := [Send buttons] |}.
Proof.
  unfold prompt.
  destruct (wait_for events msg_id author_id false) as [w c] eqn:Hw.
  cbn [fst]. intros ->.
  apply wait_for_raises in Hw as [_ ->]. reflexivity.
Qed.

(** Every run of the prompt returns; one that times out returns false.
    With delete-after set the prompt deletes its message and leaves the
    controls as they are, otherwise it marks every control of its action
    row disabled. *)
Lemma prompt_returns msg_id author_id delete_after events :
  exists o,
    prompt msg_id author_id delete_after events = Ok o /\
    (fst (wait_for events msg_id author_id false) = Raise TimeoutError ->
     returned o = false) /\
    (delete_after = true ->
     trace o = [Send buttons; Delete msg_id] /\ component o = buttons) /\
    (delete_after = false ->
     component o = map disable buttons /\
     forallb _is_disabled (component o) = true).
Proof.
  unfold prompt.
  destruct (wait_for events msg_id author_id false) as [w c] eqn:Hw.
  cbn [fst].
  destruct w as [event|e].
  - cbn. destruct delete_after; eexists; (split; [reflexivity|]); cbn;
      repeat split; intros; congruence.
  - apply wait_for_raises in Hw as [-> ->]. cbn.
    destruct delete_after; eexists; (split; [reflexivity|]); cbn;
      repeat split; intros; congruence.
Qed.

(** A prompt with delete-after set that times out deletes its message. *)
Example prompt_timeout_delete_after :
  prompt 100 7 true []
  = Ok {| returned := false; suppressed := None; component := buttons;
          trace := [Send buttons; Delete 100] |}.
Proof. reflexivity. Qed.

(** C9, at a prompt (delete-after not set) that times out, with no event
    at all or with none from the author: it returns false, and it marks
    the controls of its own action row disabled, but the update that would
    carry them to the message is never sent: [event] is unbound, the error
    is discarded by the [return] in [finally], and the only call made is
    the [send] of the enabled controls. *)
Theorem prompt_timeout_update_not_sent :
  prompt 100 7 false []
  = Ok {| returned := false;
          suppressed := Some (UnboundLocalError "event");
          component := map disable buttons;
          trace := [Send buttons] |} /\
  prompt 100 7 false [Samples.stranger_confirms]
  = Ok {| returned := false;
          suppressed := Some (UnboundLocalError "event");
          component := map disable buttons;
          trace := [Send buttons] |} /\
  forallb _is_disabled buttons = false.
Proof. repeat split. Qed.

(** With the author's confirmation the prompt returns true and sends the
    disabled row as the response to that interaction. *)
Example prompt_confirmed :
  prompt 100 7 false [Samples.stranger_confirms; Samples.author_confirms]
  = Ok {| returned := true; suppressed := None;
          component := map disable buttons;
          trace := [Send buttons;
                    CreateInitialResponse Samples.author_confirms
                      (map disable buttons)] |}.
Proof. reflexivity. Qed.

End PromptFacts.

(** * More on perms.py *)

Section PermsMore.
Import Perms Layers Samples.

Variable F : Flags.

(** X1: an overwrite layer keeps every allowed bit, drops every denied
    bit that is not also allowed, and adds nothing else; of the bits the
    overwrite does not mention, those the enumeration declares stay as they
    were, and those it does not declare are dropped: outside the
    enumeration only allowed bits are left. *)
Theorem _apply_overwrites_bits perms allow_set deny_set :
  Z.land (_apply_overwrites F perms allow_set deny_set) allow_set = allow_set /\
  Z.land (_apply_overwrites F perms allow_set deny_set)
    (Z.land deny_set (Z.lnot allow_set)) = 0 /\
  Z.land (_apply_overwrites F perms allow_set deny_set)
    (Z.lnot (Z.lor perms allow_set)) = 0 /\
  Z.land (_apply_overwrites F perms allow_set deny_set)
    (Z.land (everything F) (Z.lnot (Z.lor allow_set deny_set)))
  = Z.land perms (Z.land (everything F) (Z.lnot (Z.lor allow_set deny_set))) /\
  Z.land (_apply_overwrites F perms allow_set deny_set)
    (Z.lnot (everything F))
  = Z.land allow_set (Z.lnot (everything F)).
Proof.
  unfold _apply_overwrites, invert. repeat split; bits n; bit_cases.
Qed.

(** X2: applying the same overwrite a second time changes nothing. *)
Theorem _apply_overwrites_idempotent perms allow_set deny_set :
  _apply_overwrites F (_apply_overwrites F perms allow_set deny_set)
    allow_set deny_set
  = _apply_overwrites F perms allow_set deny_set.
Proof.
  unfold _apply_overwrites, invert. bits n. bit_cases.
Qed.

(** X3: [_ensure_perms] raises [AttributeError] exactly on the sets
    without VIEW_CHANNEL and returns on the others; what it returns is a
    part of its argument, has VIEW_CHANNEL, has none of the four message
    permissions when it has no SEND_MESSAGES, and is returned unchanged
    when handed to [_ensure_perms] again. *)
Theorem _ensure_perms_idempotent p :
  (_ensure_perms F p = Raise (AttributeError "value")
   <-> Z.land p VIEW_CHANNEL = 0) /\
  ((exists r, _ensure_perms F p = Ok r) <-> Z.land p VIEW_CHANNEL <> 0) /\
  (forall r, _ensure_perms F p = Ok r ->
     Z.land r p = r /\
     Z.land r VIEW_CHANNEL = VIEW_CHANNEL /\
     (Z.land r SEND_MESSAGES = 0 ->
      Z.land r SEND_TTS_MESSAGES = 0 /\ Z.land r MENTION_ROLES = 0 /\
      Z.land r EMBED_LINKS = 0 /\ Z.land r ATTACH_FILES = 0) /\
     _ensure_perms F r = Ok r).
Proof.
  split; [|split].
  - split; [|apply _ensure_perms_raises].
    rewrite _ensure_perms_spec.
    destruct (Z.eqb_spec (Z.land p VIEW_CHANNEL) 0); [trivial | discriminate].
  - split.
    + intros [r Hr]. now apply (_ensure_perms_ok F) in Hr.
    + intros H. rewrite (_ensure_perms_returns F _ H). now eexists.
  - intros r Hr.
    destruct (_ensure_perms_stripped F _ _ Hr) as [Hv Hs].
    split; [exact (_ensure_perms_subset F _ _ Hr)|].
    split; [exact Hv|]. split; [exact Hs|].
    apply _ensure_perms_fixed; [rewrite Hv; discriminate|].
    intros Hsend. split; [|exact (Hs Hsend)].
    apply (_ensure_perms_ok F) in Hr as [_ ->].
    destruct (Z.eqb_spec (Z.land p SEND_MESSAGES) 0) as [Hp|Hp];
      [apply strip_send_known | contradiction].
Qed.

(** ** Guild-wide permissions *)

(** X4: the guild-wide computation fails exactly when the member is not
    the owner and either the role mapping has no everyone role, with the
    lookup error for the guild id, or the roles of the member carry
    neither ADMINISTRATOR nor VIEW_CHANNEL, with the [AttributeError] of
    [_ensure_perms].  The owner needs no everyone role. *)
Theorem get_guild_perms_failure guild member e :
  get_guild_perms F guild member = Raise e <->
  owner_id guild <> member_id member /\
  (roles guild !! guild_id guild = None /\ e = KeyError (guild_id guild) \/
   exists everyone,
     roles guild !! guild_id guild = Some everyone /\
     Z.land (union_roles guild (role_ids member) (role_permissions everyone))
       ADMINISTRATOR = 0 /\
     Z.land (union_roles guild (role_ids member) (role_permissions everyone))
       VIEW_CHANNEL = 0 /\
     e = AttributeError "value").
Proof.
  unfold get_guild_perms.
  destruct (Z.eqb_spec (owner_id guild) (member_id member)) as [Ho|Ho].
  - split; [discriminate | intros [H _]; contradiction].
  - destruct (roles guild !! guild_id guild) as [everyone|].
    + set (ret := union_roles guild (role_ids member)
                    (role_permissions everyone)).
      unfold truthy.
      destruct (Z.eqb_spec (Z.land ret ADMINISTRATOR) 0) as [Ha|Ha]; cbn.
      * rewrite _ensure_perms_spec.
        destruct (Z.eqb_spec (Z.land ret VIEW_CHANNEL) 0) as [Hv|Hv].
        -- split.
           ++ intros [= <-]. split; [exact Ho|]. right. now exists everyone.
           ++ intros (_ & [[H _]|(ev & _ & _ & _ & ->)]);
                [discriminate | reflexivity].
        -- split; [discriminate|].
           intros (_ & [[H _]|(ev & [= <-] & _ & H & _)]);
             [discriminate | contradiction].
      * split; [discriminate|].
        intros (_ & [[H _]|(ev & [= <-] & H & _)]);
          [discriminate | contradiction].
    + split.
      * intros [= <-]. split; [exact Ho|]. now left.
      * intros (_ & [[_ ->]|(ev & H & _)]); [reflexivity | discriminate].
Qed.

(** A bit of the union over the held roles: it was there at the start or
    a held role that the guild has carries it. *)
Lemma union_roles_testbit guild rids : forall ret n,
  Z.testbit (union_roles guild rids ret) n =
  Z.testbit ret n ||
  existsb (fun rid => match get_role guild rid with
                      | Some role => Z.testbit (role_permissions role) n
                      | None => false
                      end) rids.
Proof.
  unfold union_roles.
  induction rids as [|rid rids IH]; intros ret n; cbn [fold_left existsb].
  - now rewrite orb_false_r.
  - rewrite IH. destruct (get_role guild rid) as [role|].
    + now rewrite Z.lor_spec, orb_assoc.
    + reflexivity.
Qed.

Lemma existsb_same_members {A} (f : A -> bool) (l l' : list A) :
  (forall x, f x = true -> (In x l <-> In x l')) ->
  existsb f l = existsb f l'.
Proof.
  intros H. apply eq_true_iff_eq. rewrite !existsb_exists.
  split; intros (x & Hin & Hx); exists x; split; trivial; now apply (H x Hx).
Qed.

Lemma union_roles_same_roles guild rids rids' ret :
  (forall rid, is_Some (roles guild !! rid) ->
               (In rid rids <-> In rid rids')) ->
  union_roles guild rids ret = union_roles guild rids' ret.
Proof.
  intros H. apply Z.bits_inj'. intros n _.
  rewrite !union_roles_testbit. f_equal.
  apply existsb_same_members. intros rid Hrid. apply H.
  unfold get_role in Hrid. destruct (roles guild !! rid); [eauto | discriminate].
Qed.

Lemma get_guild_perms_roles_ext guild member member' :
  member_id member = member_id member' ->
  (forall rid, is_Some (roles guild !! rid) ->
               (In rid (role_ids member) <-> In rid (role_ids member'))) ->
  get_guild_perms F guild member = get_guild_perms F guild member'.
Proof.
  intros Hid Hroles. unfold get_guild_perms. rewrite <- Hid.
  destruct (owner_id guild =? member_id member); [reflexivity|].
  destruct (roles guild !! guild_id guild) as [everyone|]; [|reflexivity].
  now rewrite (union_roles_same_roles _ _ _ _ Hroles).
Qed.

(** X5: the guild-wide permissions of a member depend only on which of the
    guild's roles the member holds: the order of the role ids, repeated
    ids and ids of roles the guild does not have make no difference. *)
Theorem get_guild_perms_same_roles guild member member' :
  member_id member = member_id member' ->
  (forall rid, is_Some (roles guild !! rid) ->
               (In rid (role_ids member) <-> In rid (role_ids member'))) ->
  get_guild_perms F guild member = get_guild_perms F guild member'.
Proof. apply get_guild_perms_roles_ext. Qed.

Lemma administrator_bit x :
  Z.land x ADMINISTRATOR <> 0 <-> Z.testbit x 3 = true.
Proof.
  change ADMINISTRATOR with (2 ^ 3). split.
  - intros H. destruct (Z.testbit x 3) eqn:Hx; [reflexivity|].
    exfalso. apply H. apply Z.bits_inj'. intros n Hn.
    rewrite Z.land_spec, Z.bits_0, Z.pow2_bits_eqb by lia.
    destruct (Z.eqb_spec 3 n) as [<-|]; [now rewrite Hx | apply andb_false_r].
  - intros Hx H.
    assert (Hb := f_equal (fun z => Z.testbit z 3) H). cbv beta in Hb.
    rewrite Z.land_spec, Hx, Z.bits_0 in Hb. discriminate.
Qed.

(** X6: a member who holds a role of the guild that carries ADMINISTRATOR,
    or a member of a guild whose everyone role carries it, has the full
    permission set guild-wide. *)
Theorem get_guild_perms_administrator guild member everyone :
  roles guild !! guild_id guild = Some everyone ->
  (Z.land (role_permissions everyone) ADMINISTRATOR <> 0 \/
   exists rid role,
     In rid (role_ids member) /\ roles guild !! rid = Some role /\
     Z.land (role_permissions role) ADMINISTRATOR <> 0) ->
  get_guild_perms F guild member = Ok ALL.
Proof.
  intros He Hadmin. unfold get_guild_perms. rewrite He.
  destruct (owner_id guild =? member_id member); [reflexivity|].
  assert (Hbit : Z.testbit (union_roles guild (role_ids member)
                              (role_permissions everyone)) 3 = true).
  { rewrite union_roles_testbit. apply orb_true_iff.
    destruct Hadmin as [H|(rid & role & Hin & Hrole & H)].
    - left. now apply administrator_bit.
    - right. apply existsb_exists. exists rid. split; [exact Hin|].
      unfold get_role. rewrite Hrole. now apply administrator_bit. }
  apply administrator_bit in Hbit. unfold truthy.
  destruct (Z.eqb_spec (Z.land (union_roles guild (role_ids member)
                                  (role_permissions everyone)) ADMINISTRATOR) 0);
    [contradiction | reflexivity].
Qed.

Lemma contains_lor p a b :
  (Z.land p (Z.lor a b) =? Z.lor a b)
  = (Z.land p a =? a) && (Z.land p b =? b).
Proof.
  apply eq_true_iff_eq. rewrite andb_true_iff, !Z.eqb_eq. split.
  - intros H. split; bits n; bit_of H n; bit_cases.
  - intros [H1 H2]. bits n. bit_of H1 n. bit_of H2 n. bit_cases.
Qed.

(** X7: asking for the union of two permission sets is granted exactly
    when each of the two is granted, guild-wide and in a channel; an error
    of the computation does not depend on what is asked for. *)
Theorem has_perms_union bot member channel guild a b :
  has_guild_perms F bot member (Z.lor a b) guild
  = (x ← has_guild_perms F bot member a guild;
     y ← has_guild_perms F bot member b guild; Ok (x && y)) /\
  has_channel_perms F bot member channel (Z.lor a b) guild
  = (x ← has_channel_perms F bot member channel a guild;
     y ← has_channel_perms F bot member channel b guild; Ok (x && y)).
Proof.
  unfold has_guild_perms, has_channel_perms, _auto_pass_guild.
  split.
  - destruct guild as [g|]; [|destruct (cache bot !! member_guild_id member) as [g|]];
      try reflexivity;
      destruct (get_guild_perms F g member); cbn; try reflexivity;
      now rewrite contains_lor.
  - destruct guild as [g|]; [|destruct (cache bot !! member_guild_id member) as [g|]];
      try reflexivity;
      destruct (channel_perms F member channel g); cbn; try reflexivity;
      now rewrite contains_lor.
Qed.

(** ** Channel-scoped permissions *)

(** X30: the channel-scoped computation returns exactly when the
    guild-wide one returns, the channel has an everyone overwrite, and the
    set that the layers leave (the everyone overwrite, then the overwrites
    of the held roles combined, then the member's own overwrite) has
    VIEW_CHANNEL; it then returns what the stripping rule makes of that
    set. *)
Theorem channel_perms_layers member channel guild r :
  channel_perms F member channel guild = Ok r <->
  exists base everyone,
    get_guild_perms F guild member = Ok base /\
    permission_overwrites channel !! guild_id guild = Some everyone /\
    Z.land (layers F base everyone channel member) VIEW_CHANNEL <> 0 /\
    r = layered F base everyone channel member.
Proof.
  split.
  - intros Hr.
    destruct (get_guild_perms F guild member) as [base|e] eqn:Hb;
      [|unfold channel_perms in Hr; rewrite Hb in Hr; discriminate].
    destruct (permission_overwrites channel !! guild_id guild)
      as [everyone|] eqn:He;
      [|rewrite (channel_perms_needs_everyone F _ _ _ _ Hb He) in Hr;
        discriminate].
    rewrite (channel_perms_value F _ _ _ _ _ Hb He) in Hr.
    exists base, everyone. repeat split; trivial.
    + now apply (_ensure_perms_ok F) in Hr.
    + now apply _ensure_perms_rule.
  - intros (base & everyone & Hb & He & Hv & ->).
    rewrite (channel_perms_value F _ _ _ _ _ Hb He).
    destruct (_ensure_perms F (layers F base everyone channel member))
      as [r|e] eqn:Hr.
    + f_equal. now apply _ensure_perms_rule.
    + rewrite (_ensure_perms_returns F _ Hv) in Hr. discriminate.
Qed.

Lemma layer_contains_allow base a d : Z.land (layer F base a d) a = a.
Proof.
  unfold layer, clear, invert. bits n. bit_cases.
Qed.

Lemma layer_drops_denied base a d :
  Z.land (layer F base a d) (Z.land d (Z.lnot a)) = 0.
Proof.
  unfold layer, clear, invert. bits n. bit_cases.
Qed.

(** X8: the member's own overwrite has the last word on what it allows:
    when the guild-wide computation returns, the channel has an everyone
    overwrite and the member's own overwrite allows VIEW_CHANNEL and
    SEND_MESSAGES, the channel-scoped computation returns and every
    permission that overwrite allows is granted, whatever the everyone and
    role overwrites deny. *)
Theorem member_overwrite_allow_wins bot member channel guild base everyone
    own perms :
  get_guild_perms F guild member = Ok base ->
  permission_overwrites channel !! guild_id guild = Some everyone ->
  permission_overwrites channel !! member_id member = Some own ->
  Z.land (allow own) VIEW_CHANNEL = VIEW_CHANNEL ->
  Z.land (allow own) SEND_MESSAGES = SEND_MESSAGES ->
  Z.land (allow own) perms = perms ->
  exists r,
    channel_perms F member channel guild = Ok r /\
    Z.land r (allow own) = allow own /\
    has_channel_perms F bot member channel perms (Some guild) = Ok true.
Proof.
  intros Hb He Hown Hview Hsend Hperms.
  pose proof (channel_perms_value F _ _ _ _ _ Hb He) as Hc.
  unfold layers in Hc. rewrite Hown in Hc.
  set (roles_done := layer F (layer F base (allow everyone) (deny everyone)) _ _)
    in Hc.
  set (x := layer F roles_done (allow own) (deny own)) in Hc.
  pose proof (layer_contains_allow roles_done (allow own) (deny own)) as Hall.
  fold x in Hall.
  pose proof (contains_trans _ _ _ Hall Hsend) as Hs.
  pose proof (contains_trans _ _ _ Hall Hview) as Hv.
  assert (Hx : _ensure_perms F x = Ok x).
  { rewrite _ensure_perms_returns by (rewrite Hv; discriminate).
    now rewrite Hs. }
  rewrite Hx in Hc. exists x. split; [exact Hc|]. split; [exact Hall|].
  unfold has_channel_perms, _auto_pass_guild. rewrite Hc. cbn.
  f_equal. apply Z.eqb_eq. exact (contains_trans _ _ _ Hall Hperms).
Qed.

(** X9: what the member's own overwrite denies and does not allow is never
    granted in the channel, whatever the roles allow: asking for a set that
    holds such a permission is never answered true; the set the
    channel-scoped computation returns, when it returns, has no such
    permission, and the answer is then false. *)
Theorem member_overwrite_deny_wins bot member channel guild own perms :
  permission_overwrites channel !! member_id member = Some own ->
  Z.land perms (Z.land (deny own) (Z.lnot (allow own))) <> 0 ->
  has_channel_perms F bot member channel perms (Some guild) <> Ok true /\
  (forall r,
     channel_perms F member channel guild = Ok r ->
     Z.land r (Z.land (deny own) (Z.lnot (allow own))) = 0 /\
     has_channel_perms F bot member channel perms (Some guild) = Ok false).
Proof.
  intros Hown Hperms.
  assert (Hret : forall r,
            channel_perms F member channel guild = Ok r ->
            Z.land r (Z.land (deny own) (Z.lnot (allow own))) = 0 /\
            has_channel_perms F bot member channel perms (Some guild)
            = Ok false).
  { intros r Hr.
    assert (Hnone : Z.land r (Z.land (deny own) (Z.lnot (allow own))) = 0).
    { pose proof Hr as Hl. apply channel_perms_layers in Hl.
      destruct Hl as (base & ev & Hb & He & _ & _).
      rewrite (channel_perms_value F _ _ _ _ _ Hb He) in Hr.
      unfold layers in Hr. rewrite Hown in Hr.
      rewrite <- (_ensure_perms_subset F _ _ Hr), <- Z.land_assoc,
        layer_drops_denied.
      apply Z.land_0_r. }
    split; [exact Hnone|].
    unfold has_channel_perms, _auto_pass_guild. rewrite Hr. cbn.
    f_equal. apply Z.eqb_neq. intros Heq. apply Hperms.
    rewrite <- Heq, (Z.land_comm r), <- Z.land_assoc, Hnone.
    apply Z.land_0_r. }
  split; [|exact Hret].
  destruct (channel_perms F member channel guild) as [r|e] eqn:Hr.
  - destruct (Hret r eq_refl) as [_ ->]. discriminate.
  - unfold has_channel_perms, _auto_pass_guild. rewrite Hr. discriminate.
Qed.

Lemma layer_neutral base : layer F base 0 0 = Z.land base (everything F).
Proof.
  unfold layer, clear, invert. bits n. bit_cases.
Qed.

(** What the guild-wide computation returns has VIEW_CHANNEL, and without
    SEND_MESSAGES none of the four message permissions. *)
Lemma get_guild_perms_stripped guild member r :
  get_guild_perms F guild member = Ok r ->
  Z.land r VIEW_CHANNEL = VIEW_CHANNEL /\
  (Z.land r SEND_MESSAGES = 0 ->
   Z.land r SEND_TTS_MESSAGES = 0 /\ Z.land r MENTION_ROLES = 0 /\
   Z.land r EMBED_LINKS = 0 /\ Z.land r ATTACH_FILES = 0).
Proof.
  assert (HALL : Z.land ALL VIEW_CHANNEL = VIEW_CHANNEL /\
                 (Z.land ALL SEND_MESSAGES = 0 ->
                  Z.land ALL SEND_TTS_MESSAGES = 0 /\
                  Z.land ALL MENTION_ROLES = 0 /\
                  Z.land ALL EMBED_LINKS = 0 /\ Z.land ALL ATTACH_FILES = 0))
    by (split; [reflexivity | intros H; vm_compute in H; discriminate]).
  unfold get_guild_perms.
  destruct (owner_id guild =? member_id member).
  - now intros [= <-].
  - destruct (roles guild !! guild_id guild) as [everyone|]; [|discriminate].
    destruct (truthy _).
    + now intros [= <-].
    + apply _ensure_perms_stripped.
Qed.

(** X10: in a channel whose everyone overwrite allows and denies nothing
    and which has no overwrite for the member or the roles the member
    holds, the member has the guild-wide permissions, cut down to the flags
    the enumeration declares; an error of the guild-wide computation is
    passed on.  When the guild-wide permissions are all declared, the
    channel-scoped permissions are the guild-wide ones. *)
Theorem channel_perms_neutral member channel guild everyone :
  permission_overwrites channel !! guild_id guild = Some everyone ->
  allow everyone = NONE -> deny everyone = NONE ->
  (forall rid, In rid (role_ids member) ->
               permission_overwrites channel !! rid = None) ->
  permission_overwrites channel !! member_id member = None ->
  channel_perms F member channel guild
  = (base ← get_guild_perms F guild member;
     Ok (Z.land base (everything F))) /\
  (forall base,
     get_guild_perms F guild member = Ok base ->
     Z.land base (everything F) = base ->
     channel_perms F member channel guild = get_guild_perms F guild member).
Proof.
  intros He Ha Hd Hroles Hown.
  assert (Hmain : channel_perms F member channel guild
                  = (base ← get_guild_perms F guild member;
                     Ok (Z.land base (everything F)))).
  { destruct (get_guild_perms F guild member) as [base|e] eqn:Hb.
    - rewrite (channel_perms_value F _ _ _ _ _ Hb He). cbn.
      unfold layers, role_overwrites. rewrite Hown, Ha, Hd.
      assert (Hnil : omap (fun rid => permission_overwrites channel !! rid)
                       (role_ids member) = []).
      { induction (role_ids member) as [|rid rids IH]; [reflexivity|].
        cbn. rewrite (Hroles rid) by now left.
        apply IH. intros x Hx. apply Hroles. now right. }
      rewrite Hnil. cbn [union_of foldr]. unfold NONE.
      rewrite !layer_neutral, <- Z.land_assoc, Z.land_diag.
      destruct (get_guild_perms_stripped _ _ _ Hb) as [Hv Hs].
      pose proof (known F VIEW_CHANNEL eq_refl) as Hkv.
      pose proof (known F SEND_MESSAGES eq_refl) as Hks.
      assert (Hsub : forall v, Z.land base v = 0 ->
                               Z.land (Z.land base (everything F)) v = 0).
      { intros v H. bits n. bit_of H n. bit_cases. }
      apply _ensure_perms_fixed.
      + replace (Z.land (Z.land base (everything F)) VIEW_CHANNEL)
          with VIEW_CHANNEL; [discriminate|].
        symmetry. bits n. bit_of Hv n. bit_of Hkv n. bit_cases.
      + intros Hsend.
        assert (Hbs : Z.land base SEND_MESSAGES = 0).
        { bits n. bit_of Hsend n. bit_of Hks n. bit_cases. }
        destruct (Hs Hbs) as (H1 & H2 & H3 & H4).
        split; [now rewrite <- Z.land_assoc, Z.land_diag|].
        repeat split; now apply Hsub.
    - unfold channel_perms. now rewrite Hb. }
  split; [exact Hmain|].
  intros base Hb Hk. rewrite Hmain, Hb. cbn. now rewrite Hk.
Qed.

Lemma union_of_testbit (field : Overwrite -> Permissions) channel rids n :
  Z.testbit
    (union_of field
       (omap (fun rid => permission_overwrites channel !! rid) rids)) n
  = existsb (fun rid => match permission_overwrites channel !! rid with
                        | Some ow => Z.testbit (field ow) n
                        | None => false
                        end) rids.
Proof.
  induction rids as [|rid rids IH]; cbn.
  - apply Z.bits_0.
  - destruct (permission_overwrites channel !! rid) as [ow|]; cbn.
    + fold (union_of field
              (omap (fun rid => permission_overwrites channel !! rid) rids)).
      now rewrite Z.lor_spec, IH.
    + exact IH.
Qed.

(** X11: the channel-scoped permissions of a member depend only on the set
    of role ids held: their order and repetitions make no difference. *)
Theorem channel_perms_same_roles member member' channel guild :
  member_id member = member_id member' ->
  (forall rid, In rid (role_ids member) <-> In rid (role_ids member')) ->
  channel_perms F member channel guild = channel_perms F member' channel guild.
Proof.
  intros Hid Hroles.
  assert (Hg : get_guild_perms F guild member = get_guild_perms F guild member')
    by (apply get_guild_perms_roles_ext; [exact Hid | intros rid _; apply Hroles]).
  unfold channel_perms. rewrite <- Hg, <- Hid.
  destruct (get_guild_perms F guild member) as [base|]; [|reflexivity].
  cbn.
  destruct (permission_overwrites channel !! guild_id guild); [|reflexivity].
  rewrite !union_overwrites_spec.
  assert (Hu : forall field,
            union_of field
              (omap (fun rid => permission_overwrites channel !! rid)
                 (role_ids member))
            = union_of field
                (omap (fun rid => permission_overwrites channel !! rid)
                   (role_ids member'))).
  { intros field. apply Z.bits_inj'. intros n _.
    rewrite !union_of_testbit. apply existsb_same_members.
    intros rid _. apply Hroles. }
  now rewrite !Hu.
Qed.

End PermsMore.

Lemma get_guild_perms_same_roles_witness :
  Perms.get_guild_perms Samples.flags33 Samples.guild2 Samples.member8
  = Perms.get_guild_perms Samples.flags33 Samples.guild2
      {| Perms.member_id := 8; Perms.member_guild_id := 1;
         Perms.role_ids := [3; 3] |}.
Proof.
  apply get_guild_perms_same_roles; [reflexivity|].
  intros rid [role Hrole]. cbn. split.
  - intros [<-|[<-|[]]]; [vm_compute in Hrole; discriminate | now left].
  - intros [<-|[<-|[]]]; right; now left.
Defined.

Lemma get_guild_perms_administrator_witness :
  Perms.get_guild_perms Samples.flags33 Samples.guild3 Samples.admin9
  = Ok Perms.ALL.
Proof.
  apply (get_guild_perms_administrator Samples.flags33 Samples.guild3
           Samples.admin9
           {| Perms.role_id := 1; Perms.role_permissions := Perms.NONE |});
    [reflexivity|].
  right.
  exists 4, {| Perms.role_id := 4;
               Perms.role_permissions := Perms.ADMINISTRATOR |}.
  split; [now left | split; [reflexivity | discriminate]].
Defined.

Lemma member_overwrite_allow_wins_witness :
  exists r,
    Perms.channel_perms Samples.flags33 Samples.member8
      {| Perms.channel_id := 6; Perms.channel_guild_id := 1;
         Perms.permission_overwrites :=
           {[ 1 := {| Perms.ow_id := 1; Perms.allow := Perms.NONE;
                      Perms.deny := 3072 |};
              8 := {| Perms.ow_id := 8; Perms.allow := 3072;
                      Perms.deny := Perms.NONE |} ]} |}
      Samples.guild2 = Ok r /\
    Z.land r 3072 = 3072 /\
    Perms.has_channel_perms Samples.flags33 Samples.no_cache Samples.member8
      {| Perms.channel_id := 6; Perms.channel_guild_id := 1;
         Perms.permission_overwrites :=
           {[ 1 := {| Perms.ow_id := 1; Perms.allow := Perms.NONE;
                      Perms.deny := 3072 |};
              8 := {| Perms.ow_id := 8; Perms.allow := 3072;
                      Perms.deny := Perms.NONE |} ]} |}
      Perms.SEND_MESSAGES (Some Samples.guild2) = Ok true.
Proof.
  eapply (member_overwrite_allow_wins Samples.flags33 Samples.no_cache
            Samples.member8 _ Samples.guild2 19456
            {| Perms.ow_id := 1; Perms.allow := Perms.NONE;
               Perms.deny := 3072 |}
            {| Perms.ow_id := 8; Perms.allow := 3072;
               Perms.deny := Perms.NONE |} Perms.SEND_MESSAGES);
    vm_compute; reflexivity.
Defined.

Lemma member_overwrite_deny_wins_witness :
  Perms.has_channel_perms Samples.flags33 Samples.no_cache Samples.member8
    Samples.busy_channel Perms.ATTACH_FILES (Some Samples.guild2) <> Ok true /\
  (forall r,
     Perms.channel_perms Samples.flags33 Samples.member8 Samples.busy_channel
       Samples.guild2 = Ok r ->
     Z.land r
       (Z.land Perms.ATTACH_FILES (Z.lnot Perms.EMBED_LINKS)) = 0 /\
     Perms.has_channel_perms Samples.flags33 Samples.no_cache Samples.member8
       Samples.busy_channel Perms.ATTACH_FILES (Some Samples.guild2)
     = Ok false).
Proof.
  apply (member_overwrite_deny_wins Samples.flags33 Samples.no_cache
           Samples.member8 Samples.busy_channel Samples.guild2
           {| Perms.ow_id := 8; Perms.allow := Perms.EMBED_LINKS;
              Perms.deny := Perms.ATTACH_FILES |}
           Perms.ATTACH_FILES); [reflexivity|].
  vm_compute. discriminate.
Defined.

Lemma channel_perms_neutral_witness :
  Perms.channel_perms Samples.flags33 Samples.member8
    {| Perms.channel_id := 4; Perms.channel_guild_id := 1;
       Perms.permission_overwrites :=
         {[ 1 := {| Perms.ow_id := 1; Perms.allow := Perms.NONE;
                    Perms.deny := Perms.NONE |};
            5 := {| Perms.ow_id := 5; Perms.allow := Perms.NONE;
                    Perms.deny := Perms.VIEW_CHANNEL |} ]} |}
    Samples.guild2
  = (base ← Perms.get_guild_perms Samples.flags33 Samples.guild2
              Samples.member8;
     Ok (Z.land base (Perms.everything Samples.flags33))) /\
  (forall base,
     Perms.get_guild_perms Samples.flags33 Samples.guild2 Samples.member8
     = Ok base ->
     Z.land base (Perms.everything Samples.flags33) = base ->
     Perms.channel_perms Samples.flags33 Samples.member8
       {| Perms.channel_id := 4; Perms.channel_guild_id := 1;
          Perms.permission_overwrites :=
            {[ 1 := {| Perms.ow_id := 1; Perms.allow := Perms.NONE;
                       Perms.deny := Perms.NONE |};
               5 := {| Perms.ow_id := 5; Perms.allow := Perms.NONE;
                       Perms.deny := Perms.VIEW_CHANNEL |} ]} |}
       Samples.guild2
     = Perms.get_guild_perms Samples.flags33 Samples.guild2 Samples.member8).
Proof.
  apply (channel_perms_neutral Samples.flags33 Samples.member8 _
           Samples.guild2
           {| Perms.ow_id := 1; Perms.allow := Perms.NONE;
              Perms.deny := Perms.NONE |});
    try reflexivity.
  intros rid [<-|[<-|[]]]; reflexivity.
Defined.

Lemma channel_perms_same_roles_witness :
  Perms.channel_perms Samples.flags33 Samples.member8 Samples.busy_channel
    Samples.guild2
  = Perms.channel_perms Samples.flags33
      {| Perms.member_id := 8; Perms.member_guild_id := 1;
         Perms.role_ids := [3; 2; 3] |}
      Samples.busy_channel Samples.guild2.
Proof.
  apply channel_perms_same_roles; [reflexivity|].
  intros rid. cbn. tauto.
Defined.

(** * More on the prefix resolver *)

Section PrefixMore.
Import Prefix.
Local Open Scope string_scope.
Local Open Scope nat_scope.

Lemma lower_char_idempotent c : lower_char (lower_char c) = lower_char c.
Proof.
  destruct c as [[] [] [] [] [] [] [] []]; reflexivity.
Qed.

Lemma lower_idempotent s : lower (lower s) = lower s.
Proof.
  induction s as [|c s IH]; [reflexivity|].
  cbn [lower]. now rewrite lower_char_idempotent, IH.
Qed.

Lemma append_same_length a : forall a' b b',
  a ++ b = a' ++ b' -> String.length a = String.length a' -> a = a'.
Proof.
  induction a as [|x a IH]; intros [|x' a'] b b' H Hlen;
    try reflexivity; try discriminate Hlen.
  rewrite !append_cons in H. injection H as -> H.
  cbn in Hlen. f_equal. eapply IH; [exact H | lia].
Qed.

(** A candidate with an upper-case letter matches no content. *)
Lemma matches_needs_lower msg c :
  matches (lower msg) c = true -> lower (strip c) = strip c.
Proof.
  unfold matches. intros [rest H]%startswith_iff.
  assert (H' := f_equal lower H).
  rewrite lower_idempotent, lower_append, H in H'.
  symmetry. eapply append_same_length; [exact H'|].
  now rewrite length_lower.
Qed.

(** X12: the resolver is case-insensitive on one side only.  Two messages
    that differ in case alone resolve alike, but a candidate is compared
    as it is: one that holds an upper-case letter never matches, and a list
    of such candidates resolves to nothing. *)
Theorem resolve_case_one_sided :
  (forall cands msg msg',
     lower msg = lower msg' -> resolve cands msg = resolve cands msg') /\
  (forall cands msg,
     (forall c, In c cands -> lower (strip c) <> strip c) ->
     resolve cands msg = None).
Proof.
  split.
  - intros cands msg msg' H. unfold resolve, _resolve_prefix. now rewrite H.
  - intros cands msg H. rewrite resolve_select.
    replace (select (matches (lower msg)) cands) with (@None string);
      [reflexivity|].
    symmetry. apply select_none. intros c Hin.
    destruct (matches (lower msg) c) eqn:Hm; [|reflexivity].
    apply matches_needs_lower in Hm. now apply H in Hin.
Qed.

Lemma resolve_case_one_sided_witness :
  resolve ["nokari"; "n!"] "NOKARI ping" = resolve ["nokari"; "n!"] "nokari PING" /\
  resolve ["Nokari"; "N!"] "Nokari ping" = None.
Proof.
  destruct resolve_case_one_sided as [Hmsg Hcand]. split.
  - apply Hmsg. reflexivity.
  - apply Hcand. intros c [<-|[<-|[]]]; discriminate.
Defined.

Lemma select_skip P c : forall l1 l2,
  P c = false -> select P (l1 ++ c :: l2)%list = select P (l1 ++ l2)%list.
Proof.
  induction l1 as [|x l1 IH]; intros l2 Hc; cbn [select app].
  - now rewrite Hc.
  - now rewrite IH.
Qed.

(** X13: a candidate that does not match the message has no influence on
    the outcome, wherever it stands in the list and however long it is. *)
Theorem resolve_ignores_non_matching l1 c l2 msg :
  matches (lower msg) c = false ->
  resolve (l1 ++ c :: l2)%list msg = resolve (l1 ++ l2)%list msg.
Proof.
  intros H. rewrite !resolve_select. now rewrite select_skip.
Qed.

Lemma resolve_ignores_non_matching_witness :
  resolve (["n!"] ++ "a very long prefix" :: ["nokari"])%list "Nokari ping"
  = resolve (["n!"] ++ ["nokari"])%list "Nokari ping".
Proof.
  apply (resolve_ignores_non_matching ["n!"] "a very long prefix" ["nokari"]).
  reflexivity.
Defined.

End PrefixMore.

(** * Registering subcommands *)

Section RegistryFacts.
Import Registry.
Local Open Scope string_scope.
Local Open Scope nat_scope.

Variable casefold : string -> string.

Lemma set_subcommand_lookup self key child (store : Store) g i :
  store !! self = Some g ->
  set_subcommand casefold self key child store !! i
  = if decide (i = self)
    then Some (with_subcommands g
                 (<[key_of casefold g key := child]> (_subcommands g))
                 (subcommands g))
    else store !! i.
Proof.
  intros H. unfold set_subcommand. rewrite H. case_decide as Hi.
  - subst i. apply list_lookup_insert_eq. now apply lookup_lt_Some in H.
  - now apply list_lookup_insert_ne.
Qed.

Lemma add_subcommand_lookup self child (store : Store) g c i :
  store !! self = Some g -> store !! child = Some c ->
  add_subcommand self child store !! i
  = if decide (i = self)
    then Some (with_subcommands g (_subcommands g)
                 (if existsb (named store (name c)) (subcommands g)
                  then subcommands g else subcommands g ++ [child])%list)
    else store !! i.
Proof.
  intros H Hc. unfold add_subcommand. rewrite H, Hc.
  destruct (existsb (named store (name c)) (subcommands g)).
  - case_decide as Hi; [|reflexivity]. subst i. rewrite H. now destruct g.
  - case_decide as Hi.
    + subst i. apply list_lookup_insert_eq. now apply lookup_lt_Some in H.
    + now apply list_lookup_insert_ne.
Qed.

Lemma extend_checks_lookup child checks (store : Store) c i :
  store !! child = Some c ->
  extend_checks child checks store !! i
  = if decide (i = child)
    then Some (with_checks c (_checks c ++ checks))
    else store !! i.
Proof.
  intros H. unfold extend_checks. rewrite H. case_decide as Hi.
  - subst i. apply list_lookup_insert_eq. now apply lookup_lt_Some in H.
  - now apply list_lookup_insert_ne.
Qed.

(** The alias loop: the mapping of [self] receives every alias, nothing
    else in the store changes. *)
Lemma alias_loop_lookup self id al : forall (store : Store) g,
  store !! self = Some g ->
  let store' :=
    fold_left (fun store alias => set_subcommand casefold self alias id store)
      al store in
  store' !! self
  = Some (with_subcommands g
            (fold_left (fun m a => <[key_of casefold g a := id]> m) al
               (_subcommands g))
            (subcommands g)) /\
  (forall i, i <> self -> store' !! i = store !! i).
Proof.
  induction al as [|a al IH]; intros store g Hg; cbn [fold_left].
  - split; [now destruct g | reflexivity].
  - pose proof (set_subcommand_lookup self a id store g self Hg) as Hs.
    rewrite decide_True in Hs by reflexivity.
    destruct (IH _ _ Hs) as [H1 H2]. split; [exact H1|].
    intros i Hi. rewrite (H2 i Hi), (set_subcommand_lookup _ _ _ _ _ _ Hg).
    now rewrite decide_False.
Qed.

Lemma alias_map_lookup (f : string -> string) (id : nat) al :
  forall (m : gmap string nat) key,
  fold_left (fun m a => <[f a := id]> m) al m !! key
  = if decide (key ∈ f <$> al) then Some id else m !! key.
Proof.
  induction al as [|a al IH]; intros m key; cbn [fold_left fmap list_fmap].
  - rewrite decide_False; [reflexivity | apply not_elem_of_nil].
  - rewrite IH. destruct (decide (key ∈ f <$> al)) as [Hin|Hin].
    + rewrite decide_True; [reflexivity | now apply elem_of_cons; right].
    + destruct (decide (key = f a)) as [->|Hne].
      * rewrite lookup_insert_eq.
        rewrite decide_True; [reflexivity | now apply elem_of_cons; left].
      * rewrite lookup_insert_ne by congruence.
        rewrite decide_False; [reflexivity|].
        intros [H|H]%elem_of_cons; congruence.
Qed.

(** Whether a node of the store bears a name is not changed by what
    [decorate] does before it adds to the set. *)
Lemma existsb_named_ext (s s' : Store) n l :
  Forall (fun i => named s' n i = named s n i) l ->
  existsb (named s' n) l = existsb (named s n) l.
Proof.
  induction 1 as [|i l Hi _ IH]; [reflexivity|].
  cbn [existsb]. now rewrite Hi, IH.
Qed.

(** What [decorate] leaves behind. *)
Lemma decorate_lookup self child al (store store' : Store) id :
  decorate casefold self child al store = Some (store', id) ->
  exists g subs,
    store !! self = Some g /\ id = length store /\ self < id /\
    store' !! self
    = Some (with_subcommands g
              (fold_left (fun m a => <[key_of casefold g a := id]> m)
                 (aliases_or al)
                 (<[key_of casefold g (name child) := id]> (_subcommands g)))
              subs) /\
    (Forall (fun i => i < length store) (subcommands g) ->
     subs = if existsb (named store (name child)) (subcommands g)
            then subcommands g else (subcommands g ++ [id])%list) /\
    store' !! id
    = Some (if inherit_checks g
            then with_checks child (_checks child ++ _checks g) else child) /\
    (forall i, i <> self -> i <> id -> store' !! i = store !! i).
Proof.
  unfold decorate. destruct (store !! self) as [g|] eqn:Hg; [|discriminate].
  cbn. intros [= <- <-]. exists g.
  pose proof (lookup_lt_Some _ _ _ Hg) as Hlt.
  set (id := length store).
  set (s0 := (store ++ [child])%list).
  assert (H0self : s0 !! self = Some g)
    by (unfold s0; now rewrite lookup_app_l).
  assert (H0id : s0 !! id = Some child)
    by (unfold s0, id; now rewrite list_lookup_middle).
  assert (H0other : forall i, i <> id -> s0 !! i = store !! i).
  { intros i Hi. unfold s0. destruct (decide (i < length store)).
    - now rewrite lookup_app_l.
    - assert (Hgt : length store < i) by (unfold id in Hi; lia).
      rewrite (lookup_ge_None_2 store) by lia.
      apply lookup_ge_None_2. rewrite length_app. cbn. lia. }
  set (s1 := set_subcommand casefold self (name child) id s0).
  pose proof (set_subcommand_lookup self (name child) id s0 g) as H1.
  specialize (H1 self H0self) as H1self. rewrite decide_True in H1self by reflexivity.
  assert (H1id : s1 !! id = Some child).
  { unfold s1. rewrite (H1 id H0self), decide_False by lia. exact H0id. }
  set (s2 := if inherit_checks g then extend_checks id (_checks g) s1 else s1).
  assert (H2self : s2 !! self = s1 !! self).
  { unfold s2. destruct (inherit_checks g); [|reflexivity].
    rewrite (extend_checks_lookup _ _ _ _ _ H1id). now rewrite decide_False by lia. }
  assert (H2id : s2 !! id
                 = Some (if inherit_checks g
                         then with_checks child (_checks child ++ _checks g)
                         else child)).
  { unfold s2. destruct (inherit_checks g); [|exact H1id].
    rewrite (extend_checks_lookup _ _ _ _ _ H1id). now rewrite decide_True. }
  assert (H2other : forall i, i <> self -> i <> id -> s2 !! i = store !! i).
  { intros i Hs Hi. rewrite <- (H0other i Hi).
    transitivity (s1 !! i).
    - unfold s2. destruct (inherit_checks g); [|reflexivity].
      rewrite (extend_checks_lookup _ _ _ _ _ H1id). now rewrite decide_False.
    - unfold s1. rewrite (H1 i H0self). now rewrite decide_False. }
  apply (fun H => eq_trans H H1self) in H2self.
  set (c2 := if inherit_checks g
             then with_checks child (_checks child ++ _checks g) else child)
    in H2id.
  assert (Hc2 : name c2 = name child)
    by (unfold c2; now destruct (inherit_checks g)).
  set (s3 := add_subcommand self id s2).
  pose proof (fun i => add_subcommand_lookup self id s2 _ _ i H2self H2id) as H3.
  pose proof (H3 self) as H3self. rewrite decide_True in H3self by reflexivity.
  cbn [_subcommands subcommands with_subcommands] in H3self.
  rewrite Hc2 in H3, H3self.
  destruct (alias_loop_lookup self id (aliases_or al) s3 _ H3self)
    as [H4self H4other].
  cbv zeta in H4self, H4other.
  eexists. split; [reflexivity|]. split; [reflexivity|]. split; [exact Hlt|].
  split; [exact H4self|]. split; [|split].
  - intros Hwf. cbn [subcommands with_subcommands].
    erewrite existsb_named_ext; [reflexivity|].
    eapply Forall_impl; [exact Hwf|]. cbn. intros i Hi. unfold named.
    destruct (decide (i = self)) as [->|Hs].
    + now rewrite H2self, Hg.
    + rewrite H2other; [reflexivity | exact Hs | unfold id; lia].
  - rewrite H4other by lia. unfold s3.
    rewrite (H3 id), decide_False by lia. exact H2id.
  - intros i Hs Hi. rewrite (H4other i Hs). unfold s3.
    rewrite (H3 i), decide_False by exact Hs. now apply H2other.
Qed.

Lemma decorate_keys self child al (store store' : Store) id g :
  decorate casefold self child al store = Some (store', id) ->
  store !! self = Some g ->
  (forall key,
     key_of casefold g key = key_of casefold g (name child) \/
     (exists a, In a (aliases_or al) /\
                key_of casefold g key = key_of casefold g a) ->
     get_subcommand casefold store' self key = Some id) /\
  (forall key,
     key_of casefold g key <> key_of casefold g (name child) ->
     (forall a, In a (aliases_or al) ->
                key_of casefold g key <> key_of casefold g a) ->
     get_subcommand casefold store' self key
     = get_subcommand casefold store self key).
Proof.
  intros Hd Hg.
  destruct (decorate_lookup _ _ _ _ _ _ Hd)
    as (g' & subs & Hg' & _ & _ & Hself & _).
  rewrite Hg in Hg'. injection Hg' as <-.
  unfold get_subcommand. rewrite Hself, Hg. cbn.
  change (key_of casefold (with_subcommands g _ subs)) with (key_of casefold g).
  split; intros key.
  - intros Hkey. rewrite alias_map_lookup.
    destruct (decide (key_of casefold g key
                      ∈ key_of casefold g <$> aliases_or al)) as [|Hnot];
      [reflexivity|].
    destruct Hkey as [->|(a & Hin & Ha)]; [apply lookup_insert_eq|].
    exfalso. apply Hnot. apply list_elem_of_fmap. exists a.
    split; [exact Ha | now apply list_elem_of_In].
  - intros Hname Hal. rewrite alias_map_lookup.
    rewrite decide_False.
    + now apply lookup_insert_ne.
    + intros (a & Ha & Hin)%list_elem_of_fmap.
      apply (Hal a); [now apply list_elem_of_In | exact Ha].
Qed.

(** X14: registering a subcommand makes its name and every alias lead to
    the new node, whether or not they were taken, and with them every key
    the mapping of the group does not tell apart from one of them (keys
    that differ in case only, when the group is case-insensitive); every
    other key of the group keeps leading where it did, and no other node of
    the store changes.  This holds for [Group.command] and for
    [Group.group]. *)
Theorem registration_lookup self o func_name (store store' : Store) child g :
  store !! self = Some g ->
  (Group_command casefold self o func_name store = Some (store', child) \/
   exists insensitive inherit,
     Group_group casefold self o insensitive inherit func_name store
     = Some (store', child)) ->
  child = length store /\
  (forall key,
     key_of casefold g key
     = key_of casefold g (name_or (opt_name o) func_name) \/
     (exists a, In a (aliases_or (opt_aliases o)) /\
                key_of casefold g key = key_of casefold g a) ->
     get_subcommand casefold store' self key = Some child) /\
  (forall key,
     key_of casefold g key
     <> key_of casefold g (name_or (opt_name o) func_name) ->
     (forall a, In a (aliases_or (opt_aliases o)) ->
                key_of casefold g key <> key_of casefold g a) ->
     get_subcommand casefold store' self key
     = get_subcommand casefold store self key) /\
  (forall i, i <> self -> i < length store -> store' !! i = store !! i).
Proof.
  intros Hg H.
  assert (Hd : exists c, name c = name_or (opt_name o) func_name /\
                         decorate casefold self c (opt_aliases o) store
                         = Some (store', child)).
  { destruct H as [H|(ins & inh & H)]; eexists; (split; [|exact H]);
      reflexivity. }
  destruct Hd as (c & Hname & Hd).
  destruct (decorate_lookup _ _ _ _ _ _ Hd)
    as (g' & subs & _ & Hid & Hlt & _ & _ & _ & Hother).
  destruct (decorate_keys _ _ _ _ _ _ _ Hd Hg) as [Hk1 Hk2].
  rewrite Hname in Hk1, Hk2.
  repeat split; trivial.
  intros i Hs Hi. apply Hother; [exact Hs | lia].
Qed.

(** X15: the node registered by [Group.command] carries the resolved name,
    has the group as its parent, and starts with a copy of the group's
    checks when the group has [inherit_checks] set, with no checks
    otherwise; the group keeps its own checks.  Its set of subcommands
    gains the node unless it has a subcommand of that name already, in
    which case the set stays as it is. *)
Theorem registration_inherits_checks self o func_name (store store' : Store)
    child :
  Group_command casefold self o func_name store = Some (store', child) ->
  exists g c g',
    store !! self = Some g /\ store' !! child = Some c /\
    store' !! self = Some g' /\
    name c = name_or (opt_name o) func_name /\
    parent c = Some self /\
    _checks c = (if inherit_checks g then _checks g else []) /\
    _checks g' = _checks g /\
    (Forall (fun i => i < length store) (subcommands g) ->
     subcommands g'
     = if existsb (named store (name_or (opt_name o) func_name))
            (subcommands g)
       then subcommands g else (subcommands g ++ [child])%list).
Proof.
  intros Hd. unfold Group_command in Hd.
  destruct (decorate_lookup _ _ _ _ _ _ Hd)
    as (g & subs & Hg & _ & _ & Hself & Hsubs & Hchild & _).
  eexists g, _, _. split; [exact Hg|]. split; [exact Hchild|].
  split; [exact Hself|].
  destruct (inherit_checks g); repeat split; try reflexivity; exact Hsubs.
Qed.

(** X16: registering again under a name replaces the node that name leads
    to, but the aliases of the earlier node that the mapping of the group
    tells apart from the name and from the aliases of the new registration
    keep leading to the earlier node, which stays in the store. *)
Theorem re_registration_keeps_aliases self o1 o2 f1 f2
    (store s1 s2 : Store) c1 c2 alias g :
  store !! self = Some g ->
  Group_command casefold self o1 f1 store = Some (s1, c1) ->
  Group_command casefold self o2 f2 s1 = Some (s2, c2) ->
  key_of casefold g (name_or (opt_name o2) f2)
  = key_of casefold g (name_or (opt_name o1) f1) ->
  In alias (aliases_or (opt_aliases o1)) ->
  key_of casefold g alias <> key_of casefold g (name_or (opt_name o1) f1) ->
  (forall a, In a (aliases_or (opt_aliases o2)) ->
             key_of casefold g alias <> key_of casefold g a) ->
  get_subcommand casefold s2 self (name_or (opt_name o1) f1) = Some c2 /\
  get_subcommand casefold s2 self alias = Some c1 /\
  c1 <> c2 /\ s2 !! c1 = s1 !! c1 /\ is_Some (s1 !! c1).
Proof.
  intros Hg H1 H2 Hname Hin Hne Hnot. unfold Group_command in H1, H2.
  destruct (decorate_lookup _ _ _ _ _ _ H1)
    as (g0 & subs1 & Hg0 & Hc1 & Hlt1 & Hself1 & _ & Hchild1 & _).
  rewrite Hg in Hg0. injection Hg0 as <-.
  destruct (decorate_lookup _ _ _ _ _ _ H2)
    as (g1 & subs2 & Hg1 & Hc2 & Hlt2 & _ & _ & _ & Hother2).
  destruct (decorate_keys _ _ _ _ _ _ _ H1 Hg) as [Hk1 _].
  destruct (decorate_keys _ _ _ _ _ _ _ H2 Hg1) as [Hk2 Hk2'].
  cbn [name] in Hk1, Hk2, Hk2'.
  assert (Hkey : forall k, key_of casefold g1 k = key_of casefold g k).
  { intros k. rewrite Hself1 in Hg1. injection Hg1 as <-. reflexivity. }
  assert (Hlen : c1 < c2).
  { subst c1 c2. apply lookup_lt_Some in Hchild1. lia. }
  split; [apply Hk2; left; now rewrite !Hkey, Hname|].
  split.
  - rewrite Hk2'.
    + apply Hk1. right. now exists alias.
    + now rewrite !Hkey, Hname.
    + intros a Ha. rewrite !Hkey. now apply Hnot.
  - split; [lia|]. split; [apply Hother2; lia | now rewrite Hchild1].
Qed.

End RegistryFacts.

Lemma registration_lookup_witness :
  exists store',
    Registry.Group_command Prefix.lower 0 Samples2.track_options
      "spotify_track" Samples2.store2 = Some (store', 1%nat) /\
    Registry.get_subcommand Prefix.lower store' 0 "TRACK" = Some 1%nat /\
    Registry.get_subcommand Prefix.lower store' 0 "Song" = Some 1%nat /\
    Registry.get_subcommand Prefix.lower store' 0 "album"
    = Registry.get_subcommand Prefix.lower Samples2.store2 0 "album".
Proof.
  destruct (Registry.Group_command Prefix.lower 0 Samples2.track_options
              "spotify_track" Samples2.store2) as [[store' child]|] eqn:Hreg;
    [|vm_compute in Hreg; discriminate].
  destruct (registration_lookup Prefix.lower 0 Samples2.track_options
              "spotify_track" Samples2.store2 store' child Samples2.music_ci
              eq_refl (or_introl Hreg))
    as (Hchild & Hin & Hout & _).
  cbn in Hchild. subst child. exists store'.
  split; [reflexivity|]. split; [|split].
  - apply Hin. left. reflexivity.
  - apply Hin. right. exists "song"%string. split; [now left | reflexivity].
  - apply Hout; [discriminate | intros a [<-|[]]; discriminate].
Defined.

Lemma registration_inherits_checks_witness :
  exists store' c,
    Registry.Group_command Prefix.lower 0 Samples2.track_options
      "spotify_track" Samples2.store1 = Some (store', 1%nat) /\
    store' !! 1%nat = Some c /\ Registry.name c = "track"%string /\
    Registry.parent c = Some 0%nat /\
    Registry._checks c = ["owner_only"; "cooldown"]%string.
Proof.
  destruct (Registry.Group_command Prefix.lower 0 Samples2.track_options
              "spotify_track" Samples2.store1) as [[store' child]|] eqn:Hreg;
    [|vm_compute in Hreg; discriminate].
  destruct (registration_inherits_checks _ _ _ _ _ _ _ Hreg)
    as (g & c & g' & Hg & Hc & _ & Hname & Hparent & Hchecks & _).
  assert (child = 1%nat) as -> by (vm_compute in Hreg; congruence).
  injection Hg as <-.
  exists store', c. repeat split; trivial.
Defined.

Lemma re_registration_keeps_aliases_witness :
  exists s1 s2,
    Registry.Group_command Prefix.lower 0 Samples2.track_options
      "spotify_track" Samples2.store1 = Some (s1, 1%nat) /\
    Registry.Group_command Prefix.lower 0 Samples2.track_again "track" s1
    = Some (s2, 2%nat) /\
    Registry.get_subcommand Prefix.lower s2 0 "track" = Some 2%nat /\
    Registry.get_subcommand Prefix.lower s2 0 "song" = Some 1%nat.
Proof.
  destruct (Registry.Group_command Prefix.lower 0 Samples2.track_options
              "spotify_track" Samples2.store1) as [[s1 c1]|] eqn:H1;
    [|vm_compute in H1; discriminate].
  destruct (Registry.Group_command Prefix.lower 0 Samples2.track_again
              "track" s1) as [[s2 c2]|] eqn:H2.
  - assert (c1 = 1%nat) as -> by (vm_compute in H1; congruence).
    assert (c2 = 2%nat) as ->.
    { unfold Registry.Group_command in H2.
      destruct (decorate_lookup _ _ _ _ _ _ _ H2) as (_ & _ & _ & -> & _).
      vm_compute in H1. injection H1 as <-. reflexivity. }
    exists s1, s2. split; [reflexivity|]. split; [exact H2|].
    destruct (re_registration_keeps_aliases Prefix.lower 0
                Samples2.track_options Samples2.track_again
                "spotify_track" "track"
                Samples2.store1 s1 s2 1%nat 2%nat "song" Samples2.music
                eq_refl H1 H2)
      as (Ha & Hb & _); try reflexivity; try discriminate.
    + now left.
    + intros a [].
    + split; [exact Ha | exact Hb].
  - exfalso. vm_compute in H1. injection H1 as <-.
    vm_compute in H2. discriminate.
Defined.

(** * The eval helpers *)

Section AdminFacts.
Import Admin.
Local Open Scope string_scope.
Local Open Scope nat_scope.

(** Induction on statements, with the bodies they hold. *)
Lemma stmt_nested_ind (P : stmt -> Prop) :
  (forall v, P (Expr v)) -> (forall v, P (Return v)) ->
  (forall t b o, Forall P b -> Forall P o -> P (If t b o)) ->
  (forall i b, Forall P b -> P (With i b)) ->
  (forall i b, Forall P b -> P (AsyncWith i b)) ->
  (forall src, P (Other src)) ->
  forall s, P s.
Proof.
  intros HE HR HIf HW HA HO. fix IH 1.
  intros [v|v|t b o|i b|i b|src].
  - apply HE.
  - apply HR.
  - apply HIf.
    + induction b as [|x b IHb]; constructor; [apply IH | exact IHb].
    + induction o as [|x o IHo]; constructor; [apply IH | exact IHo].
  - apply HW. induction b as [|x b IHb]; constructor; [apply IH | exact IHb].
  - apply HA. induction b as [|x b IHb]; constructor; [apply IH | exact IHb].
  - apply HO.
Qed.

Lemma insert_returns_snoc init s :
  insert_returns (init ++ [s]) = (init ++ [on_last s])%list.
Proof.
  induction init as [|x init IH]; [reflexivity|].
  cbn [app insert_returns]. rewrite IH.
  destruct init; reflexivity.
Qed.

Lemma list_snoc_cases {A} (l : list A) :
  l = [] \/ exists init x, l = (init ++ [x])%list.
Proof.
  induction l as [|y l IH] using rev_ind; [now left | right; eauto].
Qed.

Lemma on_last_idempotent s : on_last (on_last s) = on_last s.
Proof.
  induction s as [v|v|t b o Hb Ho|i b Hb|i b Hb|src] using stmt_nested_ind;
    try reflexivity.
  - change (If t (insert_returns (insert_returns b))
              (insert_returns (insert_returns o))
            = If t (insert_returns b) (insert_returns o)).
    f_equal.
    + destruct (list_snoc_cases b) as [->|(init & x & ->)]; [reflexivity|].
      rewrite !insert_returns_snoc. f_equal. f_equal.
      apply Forall_app in Hb as [_ Hx]. now inversion Hx.
    + destruct (list_snoc_cases o) as [->|(init & x & ->)]; [reflexivity|].
      rewrite !insert_returns_snoc. f_equal. f_equal.
      apply Forall_app in Ho as [_ Hx]. now inversion Hx.
  - change (With i (insert_returns (insert_returns b))
            = With i (insert_returns b)).
    f_equal.
    destruct (list_snoc_cases b) as [->|(init & x & ->)]; [reflexivity|].
    rewrite !insert_returns_snoc. f_equal. f_equal.
    apply Forall_app in Hb as [_ Hx]. now inversion Hx.
  - change (AsyncWith i (insert_returns (insert_returns b))
            = AsyncWith i (insert_returns b)).
    f_equal.
    destruct (list_snoc_cases b) as [->|(init & x & ->)]; [reflexivity|].
    rewrite !insert_returns_snoc. f_equal. f_equal.
    apply Forall_app in Hb as [_ Hx]. now inversion Hx.
Qed.

(** X17: [insert_returns] is idempotent: a body that has been through it
    is left as it is by a second pass. *)
Theorem insert_returns_idempotent body :
  insert_returns (insert_returns body) = insert_returns body.
Proof.
  destruct (list_snoc_cases body) as [->|(init & x & ->)]; [reflexivity|].
  rewrite !insert_returns_snoc. now rewrite on_last_idempotent.
Qed.

Lemma no_tail_exprs_snoc init s :
  no_tail_exprs (init ++ [s]) = no_tail_expr s.
Proof.
  induction init as [|x init IH]; [reflexivity|].
  cbn [app no_tail_exprs]. rewrite IH. destruct init; reflexivity.
Qed.

Lemma on_last_no_tail_expr s : no_tail_expr (on_last s) = true.
Proof.
  induction s as [v|v|t b o Hb Ho|i b Hb|i b Hb|src] using stmt_nested_ind;
    try reflexivity.
  - change (no_tail_exprs (insert_returns b)
            && no_tail_exprs (insert_returns o) = true).
    apply andb_true_iff. split.
    + destruct (list_snoc_cases b) as [->|(init & x & ->)]; [reflexivity|].
      rewrite insert_returns_snoc, no_tail_exprs_snoc.
      apply Forall_app in Hb as [_ Hx]. now inversion Hx.
    + destruct (list_snoc_cases o) as [->|(init & x & ->)]; [reflexivity|].
      rewrite insert_returns_snoc, no_tail_exprs_snoc.
      apply Forall_app in Ho as [_ Hx]. now inversion Hx.
  - change (no_tail_exprs (insert_returns b) = true).
    destruct (list_snoc_cases b) as [->|(init & x & ->)]; [reflexivity|].
    rewrite insert_returns_snoc, no_tail_exprs_snoc.
    apply Forall_app in Hb as [_ Hx]. now inversion Hx.
  - change (no_tail_exprs (insert_returns b) = true).
    destruct (list_snoc_cases b) as [->|(init & x & ->)]; [reflexivity|].
    rewrite insert_returns_snoc, no_tail_exprs_snoc.
    apply Forall_app in Hb as [_ Hx]. now inversion Hx.
Qed.

(** X18: [insert_returns] keeps the number of statements and every
    statement but the last, and afterwards no expression statement is left
    in a tail position: not at the end of the body, nor at the end of a
    branch of a final if, nor at the end of a final with block, at any
    depth.  A body that ends in any other statement is unchanged. *)
Theorem insert_returns_tail :
  (forall body, length (insert_returns body) = length body) /\
  (forall init s,
     insert_returns (init ++ [s]) = (init ++ [on_last s])%list) /\
  (forall body, no_tail_exprs (insert_returns body) = true) /\
  (forall init src,
     insert_returns (init ++ [Other src]) = (init ++ [Other src])%list) /\
  (forall init v,
     insert_returns (init ++ [Expr v]) = (init ++ [Return v])%list).
Proof.
  split; [|split; [exact insert_returns_snoc|split; [|split]]].
  - intros body.
    destruct (list_snoc_cases body) as [->|(init & x & ->)]; [reflexivity|].
    rewrite insert_returns_snoc. now rewrite !length_app.
  - intros body.
    destruct (list_snoc_cases body) as [->|(init & x & ->)]; [reflexivity|].
    rewrite insert_returns_snoc, no_tail_exprs_snoc.
    apply on_last_no_tail_expr.
  - intros init src. apply insert_returns_snoc.
  - intros init v. apply insert_returns_snoc.
Qed.

(** ** The pages of the eval command *)

Lemma nonempty_append a b : nonempty (a ++ b) = nonempty a || nonempty b.
Proof. destruct a; reflexivity. Qed.

Lemma fmt_output_nonempty output error retval hide_retval :
  nonempty (fmt_output output error retval hide_retval)
  = nonempty output || nonempty error || negb hide_retval.
Proof.
  unfold fmt_output. rewrite !nonempty_append.
  destruct (nonempty output), (nonempty error), hide_retval; reflexivity.
Qed.

(** X19: the eval command has nothing to show exactly when the script
    printed nothing, raised nothing, and its return value is hidden; an
    empty list of pages is another matter, and depends on [chunk]. *)
Theorem get_eval_pages_none chunk output error retval hide_retval
    measured_time max_char :
  get_eval_pages chunk output error retval hide_retval measured_time max_char
  = None
  <-> output = "" /\ error = "" /\ hide_retval = true.
Proof.
  unfold get_eval_pages. rewrite fmt_output_nonempty.
  destruct output as [|c o], error as [|c' e], hide_retval; cbn [nonempty orb negb];
    try (destruct (_ <? _)); split;
    try discriminate; try (intros (H1 & H2 & H3); discriminate); auto.
Qed.

Section Pages.

Variables (co ce : list string) (measured_time : string) (total : nat).

Let stdout_end : Z := (Z.of_nat (length co) - 1)%Z.
Let stderr_end : Z := (stdout_end + Z.of_nat (length ce))%Z.

Lemma pages_from_output l : forall pre rest,
  co = (pre ++ l)%list ->
  pages_from (truthy_list co) (truthy_list ce) stdout_end stderr_end
    measured_time total (length pre) (l ++ rest)
  = (pages_of "Standard Output: " measured_time total (length pre) l
     ++ pages_from (truthy_list co) (truthy_list ce) stdout_end stderr_end
          measured_time total (length co) rest)%list.
Proof.
  induction l as [|x l IH]; intros pre rest Hco.
  - rewrite app_nil_r in Hco. now subst pre.
  - cbn [app pages_from pages_of]. f_equal.
    + unfold render, page_of.
      assert (Hidx : (Z.of_nat (length pre) <=? stdout_end)%Z = true).
      { apply Z.leb_le. unfold stdout_end. rewrite Hco, length_app. cbn. lia. }
      rewrite Hidx, Hco. now destruct pre.
    + specialize (IH (pre ++ [x])%list rest).
      rewrite length_app, Nat.add_1_r in IH. apply IH.
      now rewrite <- app_assoc.
Qed.

Lemma pages_from_error l : forall pre rest,
  ce = (pre ++ l)%list ->
  pages_from (truthy_list co) (truthy_list ce) stdout_end stderr_end
    measured_time total (length co + length pre) (l ++ rest)
  = (pages_of "Standard Error: " measured_time total
       (length co + length pre) l
     ++ pages_from (truthy_list co) (truthy_list ce) stdout_end stderr_end
          measured_time total (length co + length ce) rest)%list.
Proof.
  induction l as [|x l IH]; intros pre rest Hce.
  - rewrite app_nil_r in Hce. now subst pre.
  - cbn [app pages_from pages_of]. f_equal.
    + unfold render, page_of.
      assert (H1 : (Z.of_nat (length co + length pre) <=? stdout_end)%Z = false).
      { apply Z.leb_gt. unfold stdout_end. lia. }
      assert (H2 : (Z.of_nat (length co + length pre) <=? stderr_end)%Z = true).
      { apply Z.leb_le. unfold stderr_end, stdout_end.
        rewrite Hce, length_app. cbn. lia. }
      rewrite H1, H2, andb_false_r, Hce. now destruct pre.
    + specialize (IH (pre ++ [x])%list rest).
      rewrite length_app, Nat.add_1_r, Nat.add_succ_r in IH. apply IH.
      now rewrite <- app_assoc.
Qed.

Lemma pages_from_retval l : forall start,
  length co + length ce <= start ->
  pages_from (truthy_list co) (truthy_list ce) stdout_end stderr_end
    measured_time total start l
  = pages_of "Return Value: " measured_time total start l.
Proof.
  induction l as [|x l IH]; intros start Hstart; [reflexivity|].
  cbn [pages_from pages_of]. f_equal.
  - unfold render, page_of.
    assert (H1 : (Z.of_nat start <=? stdout_end)%Z = false).
    { apply Z.leb_gt. unfold stdout_end. lia. }
    assert (H2 : (Z.of_nat start <=? stderr_end)%Z = false).
    { apply Z.leb_gt. unfold stderr_end, stdout_end. lia. }
    now rewrite H1, H2, !andb_false_r.
  - apply IH. lia.
Qed.

Lemma pages_from_all cr :
  pages_from (truthy_list co) (truthy_list ce) stdout_end stderr_end
    measured_time total 0 (co ++ ce ++ cr)
  = (pages_of "Standard Output: " measured_time total 0 co
     ++ pages_of "Standard Error: " measured_time total (length co) ce
     ++ pages_of "Return Value: " measured_time total
          (length co + length ce) cr)%list.
Proof.
  pose proof (pages_from_output co [] (ce ++ cr)%list eq_refl) as H0.
  cbn [length] in H0. rewrite H0. f_equal.
  pose proof (pages_from_error ce [] cr eq_refl) as H.
  cbn [length] in H. rewrite Nat.add_0_r in H. rewrite H. f_equal.
  now apply pages_from_retval.
Qed.

End Pages.

(** X20: when the formatted text does not fit one page, the pages are the
    pieces of the output under the heading Standard Output, then the pieces
    of the error under Standard Error, then, unless the return value is
    hidden or there is an error, the pieces of the return value under
    Return Value; they are numbered 1/n to n/n in that order. *)
Theorem get_eval_pages_headings chunk output error retval hide_retval
    measured_time max_char :
  let co := chunked chunk output max_char in
  let ce := chunked chunk error max_char in
  let cr := if negb (hide_retval || nonempty error)
            then chunk retval max_char else [] in
  let n := length (co ++ ce ++ cr) in
  nonempty (fmt_output output error retval hide_retval) = true ->
  max_char <= String.length (fmt_output output error retval hide_retval) ->
  get_eval_pages chunk output error retval hide_retval measured_time max_char
  = Some (pages_of "Standard Output: " measured_time n 0 co
          ++ pages_of "Standard Error: " measured_time n (length co) ce
          ++ pages_of "Return Value: " measured_time n
               (length co + length ce) cr)%list.
Proof.
  intros co ce cr n Hne Hlong. unfold get_eval_pages.
  rewrite Hne. cbn [negb].
  replace (String.length (fmt_output output error retval hide_retval)
           <? max_char) with false by (symmetry; apply Nat.ltb_ge; exact Hlong).
  fold co ce. f_equal.
  assert (Htexts : (if negb (hide_retval || nonempty error)
                    then ((co ++ ce) ++ chunk retval max_char)%list
                    else (co ++ ce)%list) = (co ++ ce ++ cr)%list).
  { unfold cr. destruct (negb (hide_retval || nonempty error)).
    - now rewrite <- app_assoc.
    - now rewrite app_nil_r. }
  rewrite Htexts. apply pages_from_all.
Qed.

Lemma get_eval_pages_headings_witness :
  get_eval_pages Samples2.chunk_by "hello world" "" "42" false "3ms" 8
  = Some
      (pages_of "Standard Output: " "3ms" 3 0 ["hello wo"; "rld"]
       ++ pages_of "Standard Error: " "3ms" 3 2 []
       ++ pages_of "Return Value: " "3ms" 3 2 ["42"])%list.
Proof.
  apply (get_eval_pages_headings Samples2.chunk_by "hello world" "" "42"
           false "3ms" 8).
  - reflexivity.
  - vm_compute. lia.
Defined.

End AdminFacts.

(** * More on the confirmation prompt *)

Section PromptMore.
Import Prompt PromptEvents.
Local Open Scope string_scope.

Lemma predicate_accepts msg_id author_id confirm event :
  predicate msg_id author_id confirm event
  = if relevant msg_id author_id event
    then (true, String.eqb (custom_id event) "sure")
    else (false, confirm).
Proof.
  unfold predicate, relevant.
  destruct (is_component event); cbn; [|reflexivity].
  destruct (message_id event =? msg_id)%Z; cbn; [|reflexivity].
  destruct (user_id event =? author_id)%Z; cbn; [|reflexivity].
  destruct (String.eqb (custom_id event) "sure"); cbn; [reflexivity|].
  destruct (String.eqb (custom_id event) "nvm"); reflexivity.
Qed.

Lemma wait_for_filter events msg_id author_id : forall confirm,
  wait_for events msg_id author_id confirm
  = wait_for (List.filter (relevant msg_id author_id) events)
      msg_id author_id confirm.
Proof.
  induction events as [|event rest IH]; intros confirm; [reflexivity|].
  cbn [wait_for List.filter]. rewrite predicate_accepts.
  destruct (relevant msg_id author_id event) eqn:Hrel.
  - cbn [wait_for]. now rewrite predicate_accepts, Hrel.
  - apply IH.
Qed.

(** X21: the prompt only listens to its author on its own message:
    interactions by other users, on other messages, of another kind or with
    another button id can be taken out of the run without changing what the
    prompt returns or does. *)
Theorem prompt_ignores_other_interactions msg_id author_id delete_after events :
  prompt msg_id author_id delete_after events
  = prompt msg_id author_id delete_after
      (List.filter (relevant msg_id author_id) events).
Proof.
  unfold prompt. now rewrite wait_for_filter.
Qed.

Lemma wait_for_answer events msg_id author_id :
  snd (wait_for events msg_id author_id false)
  = answer msg_id author_id events.
Proof.
  rewrite wait_for_filter. unfold answer.
  destruct (List.filter (relevant msg_id author_id) events) as [|event rest] eqn:Hf;
    [reflexivity|].
  assert (Hrel : relevant msg_id author_id event = true).
  { assert (Hin : In event (List.filter (relevant msg_id author_id) events))
      by (rewrite Hf; now left).
    now apply filter_In in Hin. }
  cbn [wait_for]. now rewrite predicate_accepts, Hrel.
Qed.

(** X22: the prompt returns true exactly when the first interaction it
    accepts is the press of the Sure button; a Never mind, or no accepted
    interaction at all, gives false, whether the message is deleted
    afterwards or not. *)
Theorem prompt_answer msg_id author_id delete_after events :
  exists o,
    prompt msg_id author_id delete_after events = Ok o /\
    returned o = answer msg_id author_id events.
Proof.
  pose proof (wait_for_answer events msg_id author_id) as Hans.
  unfold prompt.
  destruct (wait_for events msg_id author_id false) as [w c] eqn:Hw.
  cbn [snd] in Hans. subst c.
  destruct w as [event|e].
  - cbn. destruct delete_after; eexists; split; reflexivity.
  - apply wait_for_raises in Hw as [-> _]. cbn.
    destruct delete_after; eexists; split; reflexivity.
Qed.

End PromptMore.

(** * More on the plugin loader *)

Section PluginMore.
Import Plugins.

Context {State : Type} (load_extension : State -> string -> result unit * State).

(** X23: loading a sequence of identifiers in two parts is loading it in
    one go: the second part starts from the state and the output the first
    part left, and is not started at all when the first part raised. *)
Theorem load_extensions_app l1 l2 st out :
  load_extensions load_extension (l1 ++ l2) st out
  = match load_extensions load_extension l1 st out with
    | (Ok _, st', out') => load_extensions load_extension l2 st' out'
    | (Raise e, st', out') => (Raise e, st', out')
    end.
Proof.
  revert st out. induction l1 as [|extension l1 IH]; intros st out;
    [reflexivity|].
  cbn [app load_extensions].
  destruct (load_extension st extension) as [[[]|e] st']; [apply IH|].
  destruct e; try reflexivity; apply IH.
Qed.

End PluginMore.

(** * The start-up check *)

Section MainFacts.
Import Main.
Local Open Scope string_scope.

(** X24: the start-up check passes exactly when every listed variable is
    set; when one is missing, the error names the first missing one in the
    order of the list, whatever the state of the later ones. *)
Theorem check_env_first_missing vars (environ : gset string) :
  (check_env vars environ = Ok tt <-> forall var, In var vars -> var ∈ environ) /\
  (forall before var after,
     vars = (before ++ var :: after)%list ->
     (forall v, In v before -> v ∈ environ) -> var ∉ environ ->
     check_env vars environ
     = Raise (RuntimeError (var ++ " env variable must be set."))).
Proof.
  split.
  - induction vars as [|v vars IH]; cbn [check_env].
    + split; [intros _ var [] | reflexivity].
    + destruct (decide (v ∈ environ)) as [Hv|Hv].
      * rewrite IH. split.
        -- intros H var [<-|Hin]; auto.
        -- intros H var Hin. apply H. now right.
      * split; [discriminate|]. intros H. exfalso. apply Hv, H. now left.
  - intros before var after -> Hbefore Hvar.
    induction before as [|v before IH]; cbn [app check_env].
    + now rewrite decide_False.
    + rewrite decide_True by (apply Hbefore; now left).
      apply IH. intros x Hx. apply Hbefore. now right.
Qed.

Lemma check_env_first_missing_witness :
  check_env required {[ "DISCORD_BOT_TOKEN"; "SPOTIPY_CLIENT_ID" ]}
  = Raise (RuntimeError "POSTGRESQL_DSN env variable must be set.").
Proof.
  apply (proj2 (check_env_first_missing required
                  {[ "DISCORD_BOT_TOKEN"; "SPOTIPY_CLIENT_ID" ]})
           ["DISCORD_BOT_TOKEN"] "POSTGRESQL_DSN"
           ["SPOTIPY_CLIENT_ID"; "SPOTIPY_CLIENT_SECRET"]).
  - reflexivity.
  - intros v [<-|[]]. apply (bool_decide_unpack _). vm_compute. exact I.
  - apply (bool_decide_unpack _). vm_compute. exact I.
Defined.

End MainFacts.

(** * The plugin identifiers and the reload of modules *)

Section BotFilesFacts.
Import BotFiles.
Local Open Scope string_scope.
Local Open Scope nat_scope.

Lemma no_slash_append a b : no_slash (a ++ b) = no_slash a && no_slash b.
Proof.
  induction a as [|c a IH]; [reflexivity|].
  rewrite append_cons. cbn [no_slash]. now rewrite IH, andb_assoc.
Qed.

Lemma no_slash_dots s : no_slash (dots s) = true.
Proof.
  induction s as [|c s IH]; [reflexivity|].
  cbn [dots no_slash]. rewrite IH.
  destruct (is_slash c) eqn:Hc; [reflexivity | now rewrite Hc].
Qed.

Lemma no_slash_substring s : forall n m,
  no_slash s = true -> no_slash (substring n m s) = true.
Proof.
  induction s as [|c s IH]; intros n m Hs.
  - now destruct n, m.
  - cbn [no_slash] in Hs. apply andb_true_iff in Hs as [Hc Hs].
    destruct n as [|n]; [destruct m as [|m]|]; cbn [substring].
    + reflexivity.
    + cbn [no_slash]. now rewrite Hc, IH.
    + now apply IH.
Qed.

Lemma substring_split s : forall n,
  n <= String.length s ->
  substring 0 n s ++ substring n (String.length s - n) s = s.
Proof.
  induction s as [|c s IH]; intros n Hn.
  - cbn in Hn. now replace n with 0 by lia.
  - destruct n as [|n].
    + cbn [String.length substring]. rewrite append_nil.
      rewrite Nat.sub_0_r. f_equal.
      specialize (IH 0 (Nat.le_0_l _)). cbn in IH.
      rewrite Nat.sub_0_r in IH.
      destruct s; [reflexivity|]. cbn [substring] in IH |- *.
      now rewrite append_nil in IH.
    + cbn [String.length substring]. rewrite append_cons. f_equal.
      apply IH. cbn in Hn. lia.
Qed.

Lemma endswith_stem file :
  endswith file ".py" = true -> file = stem file ++ ".py".
Proof.
  unfold endswith, stem. intros [Hlen Heq]%andb_true_iff.
  apply Nat.leb_le in Hlen. apply String.eqb_eq in Heq. cbn in Hlen, Heq.
  pose proof (substring_split file (String.length file - 3)) as H.
  replace (String.length file - (String.length file - 3)) with 3 in H by lia.
  rewrite Heq in H. symmetry. apply H. lia.
Qed.

(** X25: every identifier [raw_plugins] yields comes from a file of the
    walk whose name ends in .py and does not start with an underscore, in a
    directory whose path does not mention __pycache__; it is the path with
    dots for slashes, a dot, and the file name without its .py; when the
    file name holds no slash, neither does the identifier. *)
Theorem raw_plugins_identifiers walk id :
  In id (raw_plugins walk) ->
  exists path files file,
    In (path, files) walk /\ In file files /\
    file = stem file ++ ".py" /\
    String.prefix "_" file = false /\
    contains "__pycache__" path = false /\
    id = dots (strip_slash path) ++ "." ++ stem file /\
    (no_slash file = true -> no_slash id = true).
Proof.
  unfold raw_plugins. intros Hin.
  apply in_flat_map in Hin as ([path files] & Hwalk & Hin).
  apply in_map_iff in Hin as (file & <- & Hfile).
  apply filter_In in Hfile as [Hfile Hok].
  unfold is_plugin in Hok.
  apply andb_true_iff in Hok as [[Hpy Hcache]%andb_true_iff Hprivate].
  apply negb_true_iff in Hcache, Hprivate.
  exists path, files, file. repeat split; trivial.
  - now apply endswith_stem.
  - intros Hslash. rewrite !no_slash_append, no_slash_dots.
    unfold stem. now rewrite no_slash_substring.
Qed.

Lemma raw_plugins_identifiers_witness :
  exists path files file,
    In (path, files) Samples2.walk1 /\ In file files /\
    file = stem file ++ ".py" /\
    String.prefix "_" file = false /\
    contains "__pycache__" path = false /\
    "nokari.plugins.extras.admin" = dots (strip_slash path) ++ "." ++ stem file /\
    (no_slash file = true -> no_slash "nokari.plugins.extras.admin" = true).
Proof.
  apply (raw_plugins_identifiers Samples2.walk1 "nokari.plugins.extras.admin").
  vm_compute. right. left. reflexivity.
Defined.

(** The walk of the sample yields the two plugins and nothing else. *)
Example raw_plugins_walk1 :
  raw_plugins Samples2.walk1
  = ["nokari.plugins.api"; "nokari.plugins.extras.admin"].
Proof. reflexivity. Qed.

(** ** Reloading modules *)

Section Reloading.

Context {World : Type} (reload : World -> string -> option string * World).

Lemma reload_one_cases p m :
  parents (reload_one reload p m) = {[ parent_of m ]} ∪ parents p /\
  (failed (reload_one reload p m) = failed p \/
   exists e, failed (reload_one reload p m) = {[ (m, e) ]} ∪ failed p).
Proof.
  unfold reload_one. destruct (reload (world p) m) as [[e|] w]; cbn;
    split; eauto.
Qed.

Lemma first_loop l : forall p,
  (forall m e, (m, e) ∈ failed (fold_left (reload_one reload) l p) ->
               (m, e) ∈ failed p \/ m ∈ l) /\
  (forall x, x ∈ parents (fold_left (reload_one reload) l p) <->
             x ∈ parents p \/ exists m, m ∈ l /\ x = parent_of m) /\
  (NoDup l -> (forall m e, (m, e) ∈ failed p -> m ∉ l) ->
   one_class (failed p) ->
   one_class (failed (fold_left (reload_one reload) l p))).
Proof.
  induction l as [|a l IH]; intros p; cbn [fold_left].
  - repeat split; auto.
    + intros [H|(m & H & _)]; [exact H | now apply not_elem_of_nil in H].
  - destruct (IH (reload_one reload p a)) as (Hf & Hp & Hone).
    destruct (reload_one_cases p a) as [Hpar Hfail].
    split; [|split].
    + intros m e Hin. apply Hf in Hin as [Hin|Hin].
      * destruct Hfail as [Heq|(e0 & Heq)]; rewrite Heq in Hin.
        -- now left.
        -- apply elem_of_union in Hin as [Hin|Hin]; [|now left].
           apply elem_of_singleton in Hin. injection Hin as -> ->.
           right. now left.
      * right. now right.
    + intros x. rewrite Hp, Hpar. split.
      * intros [Hin|(m & Hm & ->)].
        -- apply elem_of_union in Hin as [Hin|Hin]; [|now left].
           apply elem_of_singleton in Hin. right. exists a. split; [now left | exact Hin].
        -- right. exists m. split; [now right | reflexivity].
      * intros [Hin|(m & Hm & ->)].
        -- left. apply elem_of_union. now right.
        -- apply elem_of_cons in Hm as [->|Hm].
           ++ left. apply elem_of_union. left. now apply elem_of_singleton.
           ++ right. eauto.
    + intros Hnd Hfresh Hclass. apply NoDup_cons in Hnd as [Ha Hnd].
      apply Hone; [exact Hnd | |].
      * intros m e Hin.
        destruct Hfail as [Heq|(e0 & Heq)]; rewrite Heq in Hin.
        -- intros Hm. apply (Hfresh m e Hin). now right.
        -- apply elem_of_union in Hin as [Hin|Hin].
           ++ apply elem_of_singleton in Hin. injection Hin as -> ->. exact Ha.
           ++ intros Hm. apply (Hfresh m e Hin). now right.
      * destruct Hfail as [Heq|(e0 & Heq)]; rewrite Heq; [exact Hclass|].
        intros m e e' [H1|H1]%elem_of_union [H2|H2]%elem_of_union.
        -- apply elem_of_singleton in H1, H2. congruence.
        -- apply elem_of_singleton in H1. injection H1 as -> ->.
           exfalso. apply (Hfresh _ _ H2). now left.
        -- apply elem_of_singleton in H2. injection H2 as -> ->.
           exfalso. apply (Hfresh _ _ H1). now left.
        -- exact (Hclass _ _ _ H1 H2).
Qed.

Lemma second_loop l : forall p,
  failed (fold_left (reload_parent reload) l p) = failed p /\
  parents (fold_left (reload_parent reload) l p) = parents p.
Proof.
  assert (Hinner : forall parent names p,
            failed (fold_left (reload_ancestor reload parent) names p)
            = failed p /\
            parents (fold_left (reload_ancestor reload parent) names p)
            = parents p).
  { intros parent names. induction names as [|n names IH]; intros p;
      cbn [fold_left]; [auto|].
    destruct (IH (reload_ancestor reload parent p n)) as [-> ->].
    unfold reload_ancestor.
    destruct (reload (world p) n) as [[e|] w]; auto. }
  induction l as [|a l IH]; intros p; cbn [fold_left]; [auto|].
  destruct (IH (reload_parent reload p a)) as [-> ->].
  apply Hinner.
Qed.

(** X26: what is listed as loaded are the modules asked for that are not
    listed as failed; what is listed as failed are modules asked for, each
    with one class name; nothing else is listed.  The parents gone through
    afterwards are those of the modules asked for. *)
Theorem reload_module_report modules w :
  let r := reload_module reload modules w in
  (forall m, m ∈ loaded r <->
             In m modules /\ forall e, (m, e) ∉ not_loaded r) /\
  (forall m e, (m, e) ∈ not_loaded r -> In m modules) /\
  one_class (not_loaded r) /\
  (forall x, x ∈ parents (final r) <->
             exists m, In m modules /\ x = parent_of m).
Proof.
  cbv zeta. unfold reload_module. cbn [loaded not_loaded final].
  set (mods := list_to_set modules : gset string).
  set (p0 := {| failed := ∅; parents := ∅; log := []; world := w |}).
  set (p1 := fold_left (reload_one reload) (elements mods) p0).
  destruct (second_loop (elements (parents p1)) p1) as [Hf2 Hp2].
  rewrite Hf2, Hp2.
  destruct (first_loop (elements mods) p0) as (Hf & Hp & Hone).
  fold p1 in Hf, Hp, Hone.
  assert (Hmods : forall m, m ∈ elements mods <-> In m modules).
  { intros m. rewrite elem_of_elements. unfold mods.
    rewrite elem_of_list_to_set. apply list_elem_of_In. }
  assert (Hin : forall m e, (m, e) ∈ failed p1 -> In m modules).
  { intros m e H. apply Hf in H as [H|H]; [|now apply Hmods].
    now apply not_elem_of_empty in H. }
  split; [|split; [exact Hin|split]].
  - intros m. unfold loaded_of. rewrite elem_of_union, !elem_of_difference.
    rewrite !elem_of_map. unfold mods. rewrite elem_of_list_to_set, list_elem_of_In.
    split.
    + intros [[Hm Hnot]|[([m' e] & -> & Hfail) Hnot]].
      * split; [exact Hm|]. intros e He. apply Hnot. now exists (m, e).
      * exfalso. apply Hnot. exact (Hin _ _ Hfail).
    + intros [Hm Hnot]. left. split; [exact Hm|].
      intros ([m' e] & -> & Hfail). exact (Hnot _ Hfail).
  - apply Hone.
    + apply NoDup_elements.
    + intros m e H. now apply not_elem_of_empty in H.
    + intros m e e' H. now apply not_elem_of_empty in H.
  - intros x. rewrite Hp. split.
    + intros [H|(m & Hm & ->)]; [now apply not_elem_of_empty in H|].
      exists m. split; [now apply Hmods | reflexivity].
    + intros (m & Hm & ->). right. exists m. split; [now apply Hmods | reflexivity].
Qed.

End Reloading.

(** ** Parents *)

Lemma split_on_cons sep s : exists w ws, split_on sep s = w :: ws.
Proof.
  destruct s as [|c s]; [now exists "", []|].
  cbn [split_on]. destruct (split_on sep s) as [|w ws];
    destruct (Ascii.eqb c sep); eauto.
Qed.

Lemma join_split s : join "." (split_on "."%char s) = s.
Proof.
  induction s as [|c s IH]; [reflexivity|].
  cbn [split_on]. destruct (split_on_cons "."%char s) as (w & ws & Hs).
  rewrite Hs in IH |- *.
  destruct (Ascii.eqb_spec c "."%char) as [->|Hc].
  - cbn [join]. rewrite append_nil. cbn [join] in IH. now rewrite IH.
  - cbn [join] in IH |- *. destruct ws; [now rewrite IH|].
    now rewrite append_cons, IH.
Qed.

Lemma split_no_dot c : no_dot c = true -> split_on "."%char c = [c].
Proof.
  induction c as [|x c IH]; [reflexivity|].
  cbn [no_dot split_on]. intros [Hx Hc]%andb_true_iff.
  apply negb_true_iff in Hx. now rewrite (IH Hc), Hx.
Qed.

Lemma split_snoc q c :
  no_dot c = true ->
  split_on "."%char (q ++ "." ++ c) = (split_on "."%char q ++ [c])%list.
Proof.
  intros Hc. induction q as [|x q IH].
  - rewrite append_nil. change ("." ++ c) with (String "."%char c).
    cbn [split_on]. now rewrite (split_no_dot c Hc).
  - rewrite append_cons. cbn [split_on]. rewrite IH.
    destruct (split_on_cons "."%char q) as (w & ws & ->).
    cbn [app]. now destruct (Ascii.eqb x "."%char).
Qed.

(** X27: the parent of a dotted module name is the name without its last
    component, and a name without a dot has the empty parent. *)
Theorem parent_of_dotted :
  (forall q c, no_dot c = true -> parent_of (q ++ "." ++ c) = q) /\
  (forall c, no_dot c = true -> parent_of c = "").
Proof.
  unfold parent_of. split.
  - intros q c Hc. rewrite (split_snoc q c Hc), removelast_last.
    apply join_split.
  - intros c Hc. now rewrite (split_no_dot c Hc).
Qed.

Lemma parent_of_dotted_witness :
  parent_of ("nokari.core" ++ "." ++ "bot") = "nokari.core" /\
  parent_of "nokari" = "".
Proof.
  destruct parent_of_dotted as [Hq Hc]. split.
  - apply Hq. reflexivity.
  - apply Hc. reflexivity.
Defined.

(** X28: for a parent the reload goes through the parent itself first and
    then through its own parents in turn, up to the top-level package:
    the names tried for q.c are q.c followed by the names tried for q, and
    for a name without a dot the name alone. *)
Theorem ancestors_chain :
  (forall q c, no_dot c = true ->
     ancestors (q ++ "." ++ c) = (q ++ "." ++ c) :: ancestors q) /\
  (forall c, no_dot c = true -> ancestors c = [c]).
Proof.
  unfold ancestors. split.
  - intros q c Hc. rewrite (split_snoc q c Hc).
    set (l := split_on "."%char q).
    rewrite length_app. cbn [length]. rewrite Nat.add_1_r.
    rewrite seq_S, rev_app_distr. cbn [rev app map]. f_equal.
    + replace (1 + length l) with (length (l ++ [c])%list)
        by (rewrite length_app; cbn; lia).
      rewrite firstn_all. unfold l. rewrite <- (split_snoc q c Hc).
      apply join_split.
    + apply map_ext_in. intros idx Hin. apply in_rev, in_seq in Hin.
      f_equal. apply take_app_le. lia.
  - intros c Hc. rewrite (split_no_dot c Hc). cbn. reflexivity.
Qed.

Lemma ancestors_chain_witness :
  ancestors ("nokari.core" ++ "." ++ "bot")
  = ("nokari.core" ++ "." ++ "bot") :: ancestors "nokari.core" /\
  ancestors "nokari" = ["nokari"].
Proof.
  destruct ancestors_chain as [Hq Hc]. split.
  - apply Hq. reflexivity.
  - apply Hc. reflexivity.
Defined.

(** Reloading nokari.utils (which fails) and nokari.core.bot in the sample
    interpreter. *)
Example reload_module_sample :
  let r := reload_module Samples2.reload1
             ["nokari.core.bot"; "nokari.utils"] 0 in
  elements (loaded r) = ["nokari.core.bot"] /\
  elements (not_loaded r) = [("nokari.utils", "KeyError")] /\
  ancestors "nokari.core" = ["nokari.core"; "nokari"] /\
  parent_of "nokari" = "".
Proof. vm_compute. auto. Qed.

End BotFilesFacts.

(** * The restart note *)

Section RestartFacts.
Import BotFiles Restart.
Local Open Scope string_scope.

Lemma split_without sep s : without sep s = true -> split_on sep s = [s].
Proof.
  induction s as [|x s IH]; [reflexivity|].
  cbn [without split_on]. intros [Hx Hs]%andb_true_iff.
  apply negb_true_iff in Hx. now rewrite (IH Hs), Hx.
Qed.

Lemma split_two sep a b :
  without sep a = true -> without sep b = true ->
  split_on sep (a ++ String sep b) = [a; b].
Proof.
  intros Ha Hb. induction a as [|x a IH].
  - rewrite append_nil. cbn [split_on].
    now rewrite (split_without sep b Hb), Ascii.eqb_refl.
  - cbn [without] in Ha. apply andb_true_iff in Ha as [Hx Ha].
    apply negb_true_iff in Hx.
    rewrite append_cons. cbn [split_on]. now rewrite (IH Ha), Hx.
Qed.

Lemma Admin_nonempty_append_l a b :
  Admin.nonempty a = true -> Admin.nonempty (a ++ b) = true.
Proof. destruct a; [discriminate | reflexivity]. Qed.

Lemma pretty_N_char_no_dash d :
  (d < 10)%N -> Ascii.eqb (pretty.pretty_N_char d) "-"%char = false.
Proof.
  intros Hd.
  destruct d as [|[[[[|[]|]|[[]|[]|]|]|[[|[]|]|[[]|[]|]|]|]|[[[|[]|]|[[]|[]|]|]|[[|[]|]|[[]|[]|]|]|]|]];
    try reflexivity; lia.
Qed.

Lemma pretty_N_go_no_dash x : forall s,
  without "-"%char s = true ->
  without "-"%char (pretty.pretty_N_go x s) = true.
Proof.
  induction (N.lt_wf_0 x) as [x _ IH]. intros s Hs.
  destruct (decide (0 < x)%N) as [Hx|Hx].
  - rewrite pretty.pretty_N_go_step by exact Hx.
    apply IH; [now apply N.div_lt|].
    cbn [without]. rewrite Hs, pretty_N_char_no_dash; [reflexivity|].
    now apply N.mod_lt.
  - replace x with 0%N by lia. now rewrite pretty.pretty_N_go_0.
Qed.

Lemma pretty_N_no_dash (x : N) : without "-"%char (pretty.pretty x) = true.
Proof.
  unfold pretty.pretty, pretty.pretty_N.
  destruct (decide (x = 0%N)); [reflexivity|].
  now apply pretty_N_go_no_dash.
Qed.

Lemma pretty_N_nonempty (x : N) : Admin.nonempty (pretty.pretty x) = true.
Proof.
  unfold pretty.pretty, pretty.pretty_N.
  destruct (decide (x = 0%N)) as [|Hx]; [reflexivity|].
  rewrite pretty.pretty_N_go_step by lia.
  destruct (pretty.pretty_N_go (x `div` 10) _) eqn:Hgo; [|reflexivity].
  exfalso.
  assert (Hlen : forall y s, (String.length s
                              <= String.length (pretty.pretty_N_go y s))%nat).
  { intros y. induction (N.lt_wf_0 y) as [y _ IH]. intros s.
    destruct (decide (0 < y)%N) as [Hy|Hy].
    - rewrite pretty.pretty_N_go_step by exact Hy.
      etransitivity; [|apply IH; now apply N.div_lt]. cbn. lia.
    - replace y with 0%N by lia. now rewrite pretty.pretty_N_go_0. }
  specialize (Hlen (x `div` 10)%N
                (String (pretty.pretty_N_char (x `mod` 10)) "")).
  rewrite Hgo in Hlen. cbn in Hlen. lia.
Qed.

(** X29: the note [restart] leaves is read back by the next [start] as
    the channel id and the message id it was written from, in that order,
    followed by the text of the edit. *)
Theorem restart_note_round_trip channel_id id :
  restarted (Some (restart_note channel_id id))
  = Some [pretty.pretty channel_id; pretty.pretty id;
          "Successfully restarted!"].
Proof.
  unfold restarted, restart_note.
  rewrite Admin_nonempty_append_l by apply pretty_N_nonempty.
  change ("-" ++ pretty.pretty id) with (String "-"%char (pretty.pretty id)).
  now rewrite split_two by apply pretty_N_no_dash.
Qed.

End RestartFacts.
